(** * cosmic-cipher: the seeded password generator

    A shallow embedding of the two copies of [generatePasswordFromSeed] of the
    repository: the exported one of [lib/password-generator] and the private
    one of the API route, together with the seed generators they close over.

    Conventions of the embedding.
    - A JavaScript [number] that holds a count, a length or a position is an
      integer of [Z]; fractional values and [NaN] parameters are outside the
      model. [NaN] as the result of [x % 0] and [undefined] as the result of
      an out-of-range read are modelled by [None].
    - A JavaScript string is a [string]; every character the program handles
      is ASCII.
    - The closure returned by [createRandomGenerator] owns the mutable
      variable [position]; it is the state of the monad [M].
    - A [throw] is the outcome [Throw]; [new Error(msg)] is [Error msg]. *)

From Stdlib Require Import ZArith Ascii String Lia.
From stdpp Require Import base option list strings gmap.

Local Open Scope Z_scope.

(** ** JavaScript primitives used by the program *)

Module Js.

(** [a % b] on integers: the remainder takes the sign of the dividend, and
    a zero divisor gives [NaN]. *)
Definition rem (a b : Z) : option Z :=
  if b =? 0 then None else Some (Z.rem a b).

(** [x % b] where [x] may be [undefined]: [undefined % b] is [NaN]. *)
Definition rem_opt (x : option Z) (b : Z) : option Z :=
  match x with
  | Some a => rem a b
  | None => None
  end.

(** [s[k]] on a string, as the string that [+=] appends: the character at
    index [k], or the text of [undefined] when [k] is [NaN] or out of range. *)
Definition index (s : string) (k : option Z) : string :=
  match k with
  | Some k =>
      if k <? 0 then "undefined"
      else match String.get (Z.to_nat k) s with
           | Some c => String c EmptyString
           | None => "undefined"
           end
  | None => "undefined"
  end.

(** [s.split("")]: one one-character string per character. *)
Definition split (s : string) : list string :=
  (λ c, String c EmptyString) <$> list_ascii_of_string s.

(** [a.join("")]. An element that is [undefined] prints as the empty
    string, so [undefined] array elements are modelled by [""]. *)
Definition join (a : list string) : string :=
  foldr String.append EmptyString a.

(** [a[k]] on an array; [None] is [undefined]. *)
Definition get (a : list string) (k : option Z) : option string :=
  match k with
  | Some k => if k <? 0 then None else a !! Z.to_nat k
  | None => None
  end.

(** [a[k] = v] on an array. A key that is [NaN] or negative names a
    property, not an element. An index at or beyond the length would extend
    the array; the program never writes there ([shuffle_index_range]). *)
Definition set (a : list string) (k : option Z) (v : string) : list string :=
  match k with
  | Some k => if k <? 0 then a else <[Z.to_nat k := v]> a
  | None => a
  end.

(** The value of one hexadecimal digit, as Node's decoder reads it. *)
Definition unhex (c : ascii) : option Z :=
  let n := Z.of_nat (nat_of_ascii c) in
  if (48 <=? n) && (n <=? 57) then Some (n - 48)
  else if (65 <=? n) && (n <=? 70) then Some (n - 55)
  else if (97 <=? n) && (n <=? 102) then Some (n - 87)
  else None.

(** [new Uint8Array(Buffer.from(s, "hex"))]: two digits per byte; decoding
    stops at the first pair that is not hexadecimal, and a trailing single
    character is dropped. *)
Fixpoint hexDecode (s : string) : list Z :=
  match s with
  | String a (String b rest) =>
      match unhex a, unhex b with
      | Some hi, Some lo => (16 * hi + lo) :: hexDecode rest
      | _, _ => []
      end
  | _ => []
  end.

End Js.

(** ** Exceptions and the generator monad *)

Inductive exn : Type :=
  | Error (msg : string)
  | TypeError
  | RangeError.

Inductive outcome (A : Type) : Type :=
  | Return (a : A)
  | Throw (e : exn).
Arguments Return {A} a.
Arguments Throw {A} e.

(** A computation that may draw from the generator: it reads and writes the
    generator's [position] and returns or throws. *)
Definition M (A : Type) : Type := Z → outcome A * Z.

Definition ret {A} (a : A) : M A := λ position, (Return a, position).

Definition throw {A} (e : exn) : M A := λ position, (Throw e, position).

Definition bind {A B} (m : M A) (k : A → M B) : M B :=
  λ position,
    match m position with
    | (Return a, position') => k a position'
    | (Throw e, position') => (Throw e, position')
    end.

Notation "x <~ m ;; k" := (bind m (λ x, k))
  (at level 100, m at next level, right associativity, only parsing).

(** ** The data of the program *)

Record GenerateParams : Type := {
  length : Z;
  minUpper : Z;
  minLower : Z;
  minNumbers : Z;
  minSymbols : Z;
  includeUpper : bool;
  includeLower : bool;
  includeNumbers : bool;
  includeSymbols : bool;
}.

Record Charsets : Type := {
  uppercase : string;
  lowercase : string;
  numbers : string;
  symbols : string;
}.

Definition CHARSETS : Charsets := {|
  uppercase := "ABCDEFGHIJKLMNPQRSTUVWXYZ";
  lowercase := "abcdefghijklmnopqrstuvwxyz";
  numbers := "23456789";
  symbols := "!@#$%^&*+-=";
|}.

(** ** Reading the seed *)

(** The byte that [result[i] = seedBytes[position % seedBytes.length]]
    stores: a read that is [undefined] (an empty seed makes the index [NaN])
    is stored in the [Uint8Array] as 0. *)
Definition seedByteAt (seedBytes : list Z) (position : Z) : Z :=
  match Js.rem position (Z.of_nat (List.length seedBytes)) with
  | Some k => if k <? 0 then 0 else default 0 (seedBytes !! Z.to_nat k)
  | None => 0
  end.

(** ** The body of [generatePasswordFromSeed]

    From the destructuring of [params] to the final [join] the two copies are
    the same text; they differ in the [randomValues] they call. *)

(** The object [availableCharsets]: its keys in insertion order. *)
Definition buildAvailableCharsets (params : GenerateParams)
  : list (string * string) :=
  (if includeUpper params then [("uppercase", uppercase CHARSETS)] else [])
  ++ (if includeLower params then [("lowercase", lowercase CHARSETS)] else [])
  ++ (if includeNumbers params then [("numbers", numbers CHARSETS)] else [])
  ++ (if includeSymbols params then [("symbols", symbols CHARSETS)] else []).

(** [availableCharsets.key]; [None] is [undefined]. *)
Fixpoint property (obj : list (string * string)) (key : string)
  : option string :=
  match obj with
  | [] => None
  | (k, v) :: rest => if String.eqb k key then Some v else property rest key
  end.

Section Body.

Variable randomValues : Z → M (list Z).

(** One turn of a drawing loop:
    [randomIndex = randomValues(1)[0] % charset.length;
     password += charset[randomIndex]].
    The draw comes first; reading [.length] of an absent charset throws. *)
Definition addChar (charset : option string) (password : string) : M string :=
  bytes <~ randomValues 1 ;;
  match charset with
  | None => throw TypeError
  | Some cs =>
      let randomIndex :=
        Js.rem_opt (bytes !! 0%nat) (Z.of_nat (String.length cs)) in
      ret (password +:+ Js.index cs randomIndex)
  end.

(** [for (let i = 0; i < n; i++)] around [addChar]. *)
Fixpoint addChars (charset : option string) (n : nat) (password : string)
  : M string :=
  match n with
  | O => ret password
  | S n' =>
      password' <~ addChar charset password ;;
      addChars charset n' password'
  end.

(** One turn of the shuffle at index [i]:
    [j = randomValues(1)[0] % (i + 1); swap passwordArray[i], passwordArray[j]].
    The right-hand side is read in full before the two writes. *)
Definition swapStep (i : nat) (passwordArray : list string)
  : M (list string) :=
  bytes <~ randomValues 1 ;;
  let j := Js.rem_opt (bytes !! 0%nat) (Z.of_nat i + 1) in
  let atJ := default EmptyString (Js.get passwordArray j) in
  let atI := default EmptyString (passwordArray !! i) in
  ret (Js.set (<[i := atJ]> passwordArray) j atI).

(** [for (let i = passwordArray.length - 1; i > 0; i--)]. *)
Fixpoint shuffle (i : nat) (passwordArray : list string)
  : M (list string) :=
  match i with
  | O => ret passwordArray
  | S i' =>
      passwordArray' <~ swapStep i passwordArray ;;
      shuffle i' passwordArray'
  end.

Definition generatePasswordBody (params : GenerateParams) : M string :=
  let availableCharsets := buildAvailableCharsets params in
  if (List.length (fst <$> availableCharsets) =? 0)%nat then
    throw (Error "At least one character type must be selected")
  else
  let totalMin :=
    minUpper params + minLower params + minNumbers params
    + minSymbols params in
  if totalMin >? length params then
    throw (Error "Minimum requirements exceed password length")
  else if (minUpper params >? 0) && negb (includeUpper params) then
    throw (Error
      "Uppercase minimum requirement specified but uppercase not included")
  else if (minLower params >? 0) && negb (includeLower params) then
    throw (Error
      "Lowercase minimum requirement specified but lowercase not included")
  else if (minNumbers params >? 0) && negb (includeNumbers params) then
    throw (Error
      "Numbers minimum requirement specified but numbers not included")
  else if (minSymbols params >? 0) && negb (includeSymbols params) then
    throw (Error
      "Symbols minimum requirement specified but symbols not included")
  else
  let remainingLength := length params - totalMin in
  password <~ addChars (property availableCharsets "uppercase")
                (Z.to_nat (minUpper params)) EmptyString ;;
  password <~ addChars (property availableCharsets "lowercase")
                (Z.to_nat (minLower params)) password ;;
  password <~ addChars (property availableCharsets "numbers")
                (Z.to_nat (minNumbers params)) password ;;
  password <~ addChars (property availableCharsets "symbols")
                (Z.to_nat (minSymbols params)) password ;;
  let allAvailableChars := Js.join (snd <$> availableCharsets) in
  password <~ addChars (Some allAvailableChars)
                (Z.to_nat remainingLength) password ;;
  let passwordArray := Js.split password in
  passwordArray <~ shuffle (List.length passwordArray - 1) passwordArray ;;
  ret (Js.join passwordArray).

End Body.

(** ** The two functions *)

Module Lib.

(** The [for] loop of the closure: [n] bytes from [position] on, and the
    position after them. *)
Fixpoint fill (seedBytes : list Z) (n : nat) (position : Z) : list Z * Z :=
  match n with
  | O => ([], position)
  | S n' =>
      let b := seedByteAt seedBytes position in
      let '(rest, position') := fill seedBytes n' (position + 1) in
      (b :: rest, position')
  end.

(** [createRandomGenerator(seed)]: the closure over [seedBytes] and
    [position]; the caller starts it at position 0. [new Uint8Array(len)]
    throws a [RangeError] on a negative length. *)
Definition createRandomGenerator (seed : string) (len : Z) : M (list Z) :=
  let seedBytes := Js.hexDecode seed in
  λ position,
    if len <? 0 then (Throw RangeError, position)
    else
      let '(result, position') := fill seedBytes (Z.to_nat len) position in
      (Return result, position').

(** The exported function, run with a fresh generator: its outcome and the
    final value of the generator's [position]. *)
Definition run (seed : string) (params : GenerateParams)
  : outcome string * Z :=
  let randomValues := createRandomGenerator seed in
  generatePasswordBody randomValues params 0.

Definition generatePasswordFromSeed (seed : string) (params : GenerateParams)
  : outcome string :=
  fst (run seed params).

(** The number of bytes one call draws from its generator. *)
Definition bytesDrawn (seed : string) (params : GenerateParams) : Z :=
  snd (run seed params).

End Lib.

Module Route.

(** The loop of the route's helper: it indexes the seed by its own counter
    [i], which starts at 0 on every call. *)
Fixpoint fill (seedBytes : list Z) (n : nat) (i : Z) : list Z :=
  match n with
  | O => []
  | S n' => seedByteAt seedBytes i :: fill seedBytes n' (i + 1)
  end.

(** The inner [randomValues] of the route. It has no state of its own: the
    position of the monad passes through untouched. *)
Definition randomValues (seedBytes : list Z) (len : Z) : M (list Z) :=
  λ position,
    if len <? 0 then (Throw RangeError, position)
    else (Return (fill seedBytes (Z.to_nat len) 0), position).

Definition generatePasswordFromSeed (seed : string) (params : GenerateParams)
  : outcome string :=
  let seedBytes := Js.hexDecode seed in
  fst (generatePasswordBody (randomValues seedBytes) params 0).

End Route.

(** ** Notions used to state the properties *)

(** Membership of a character in an alphabet. *)
Fixpoint inCharset (cs : string) (c : ascii) : bool :=
  match cs with
  | EmptyString => false
  | String d rest => Ascii.eqb c d || inCharset rest c
  end.

Fixpoint countIf (f : ascii → bool) (l : list ascii) : nat :=
  match l with
  | [] => O
  | c :: rest => ((if f c then 1 else 0) + countIf f rest)%nat
  end.

(** The number of characters of [password] that belong to the alphabet. *)
Definition countClass (cs : string) (password : string) : nat :=
  countIf (inCharset cs) (list_ascii_of_string password).

(** A valid constraint specification. *)
Definition validSpec (params : GenerateParams) : Prop :=
  0 ≤ minUpper params ∧ 0 ≤ minLower params
  ∧ 0 ≤ minNumbers params ∧ 0 ≤ minSymbols params
  ∧ minUpper params + minLower params + minNumbers params
    + minSymbols params ≤ length params
  ∧ (includeUpper params || includeLower params || includeNumbers params
     || includeSymbols params) = true
  ∧ (0 < minUpper params → includeUpper params = true)
  ∧ (0 < minLower params → includeLower params = true)
  ∧ (0 < minNumbers params → includeNumbers params = true)
  ∧ (0 < minSymbols params → includeSymbols params = true).

(** No class is enabled. *)
Definition noClass (params : GenerateParams) : Prop :=
  includeUpper params = false ∧ includeLower params = false
  ∧ includeNumbers params = false ∧ includeSymbols params = false.

Definition totalMinimum (params : GenerateParams) : Z :=
  minUpper params + minLower params + minNumbers params + minSymbols params.

(** Some class has a positive minimum and is disabled. *)
Definition minimumWithoutClass (params : GenerateParams) : Prop :=
  (0 < minUpper params ∧ includeUpper params = false)
  ∨ (0 < minLower params ∧ includeLower params = false)
  ∨ (0 < minNumbers params ∧ includeNumbers params = false)
  ∨ (0 < minSymbols params ∧ includeSymbols params = false).

Definition classMessages : list string :=
  [ "Uppercase minimum requirement specified but uppercase not included";
    "Lowercase minimum requirement specified but lowercase not included";
    "Numbers minimum requirement specified but numbers not included";
    "Symbols minimum requirement specified but symbols not included" ].

(** A sequence of calls of one generator, with the requested lengths
    [lens]: all the bytes it hands out, in order. *)
Fixpoint draws (randomValues : Z → M (list Z)) (lens : list Z)
  : M (list Z) :=
  match lens with
  | [] => ret []
  | len :: rest =>
      bytes <~ randomValues len ;;
      more <~ draws randomValues rest ;;
      ret (bytes ++ more)
  end.

Fixpoint sumZ (l : list Z) : Z :=
  match l with
  | [] => 0
  | x :: rest => x + sumZ rest
  end.

(** A 32-byte seed and the default parameters of the form. *)
Definition seedA : string :=
  "000102030405060708090a0b0c0d0e0f101112131415161718191a1b1c1d1e1f".

Definition seedB : string :=
  "00ffffffffffffffffffffffffffffffffffffffffffffffffffffffffffffff".

Definition zeros64 : string :=
  "0000000000000000000000000000000000000000000000000000000000000000".

Definition p8 : GenerateParams := {|
  length := 8; minUpper := 2; minLower := 0; minNumbers := 0; minSymbols := 0;
  includeUpper := true; includeLower := true; includeNumbers := true;
  includeSymbols := true |}.

Definition p16 : GenerateParams := {|
  length := 16; minUpper := 2; minLower := 2; minNumbers := 2; minSymbols := 2;
  includeUpper := true; includeLower := true; includeNumbers := true;
  includeSymbols := true |}.

(** The scenarios of the validation rules: no class enabled while the
    minimums exceed the length; minimums that exceed the length while a
    disabled class has a minimum; a disabled class with a minimum. *)
Definition pNone : GenerateParams := {|
  length := 8; minUpper := 5; minLower := 5; minNumbers := 0; minSymbols := 0;
  includeUpper := false; includeLower := false; includeNumbers := false;
  includeSymbols := false |}.

Definition pExceed : GenerateParams := {|
  length := 8; minUpper := 5; minLower := 5; minNumbers := 0; minSymbols := 0;
  includeUpper := false; includeLower := true; includeNumbers := true;
  includeSymbols := true |}.

Definition pMissing : GenerateParams := {|
  length := 8; minUpper := 1; minLower := 0; minNumbers := 0; minSymbols := 0;
  includeUpper := false; includeLower := true; includeNumbers := true;
  includeSymbols := true |}.

(** Lower-case letters only. *)
Definition pLower : GenerateParams := {|
  length := 8; minUpper := 0; minLower := 0; minNumbers := 0; minSymbols := 0;
  includeUpper := false; includeLower := true; includeNumbers := false;
  includeSymbols := false |}.

Definition noClassMessage : string :=
  "At least one character type must be selected".

Definition exceedMessage : string :=
  "Minimum requirements exceed password length".

(** ** The request handler of the route

    [GET] from the point where [params] has been read from the query string.
    The seed and [usedFallback] are what the [try]/[catch] around
    [fetchOrbitPortSeed] leaves: the fetched seed, or 32 local random bytes
    in hexadecimal. The outer [catch] turns any exception into the 500
    response. *)

Module RouteHandler.

Record PasswordResult : Type := {
  password : string;
  seed : string;
  usedFallback : bool;
}.

(** [NextResponse.json(result)], or [NextResponse.json({ error }, { status })]. *)
Inductive response : Type :=
  | ResultJson (result : PasswordResult)
  | ErrorJson (error : string) (status : Z).

Definition GET (params : GenerateParams) (seed : string)
    (usedFallback : bool) : response :=
  if (length params <? 8) || (length params >? 32) then
    ErrorJson "Password length must be between 8 and 32 characters" 400
  else if (minUpper params <? 0) || (minLower params <? 0)
          || (minNumbers params <? 0) || (minSymbols params <? 0) then
    ErrorJson "Minimum requirements cannot be negative" 400
  else if negb (includeUpper params) && negb (includeLower params)
          && negb (includeNumbers params) && negb (includeSymbols params) then
    ErrorJson "At least one character type must be selected" 400
  else
  let totalMin :=
    minUpper params + minLower params + minNumbers params
    + minSymbols params in
  if totalMin >? length params then
    ErrorJson "Minimum requirements exceed password length" 400
  else
  match Route.generatePasswordFromSeed seed params with
  | Return password =>
      ResultJson {| password := password; seed := seed;
                    usedFallback := usedFallback |}
  | Throw _ => ErrorJson "Failed to generate password" 500
  end.

End RouteHandler.

(** ** The page

    The form of the page that generates on the client. Its two pieces of
    state are [formData] and [characterTypes]; a handler maps the previous
    state to the next one, as the functions given to the state setters do.
    The form's fields are read by name only, so a computed key that is not
    one of the five names changes nothing that is read and is dropped;
    [characterTypes] is read as a whole by [Object.values], so it is a map. *)

Definition mkGenerateParams (len mU mL mN mS : Z) (iU iL iN iS : bool)
  : GenerateParams := {|
  length := len; minUpper := mU; minLower := mL; minNumbers := mN;
  minSymbols := mS; includeUpper := iU; includeLower := iL;
  includeNumbers := iN; includeSymbols := iS |}.

Module Page.

Record FormData : Type := {
  length : Z;
  minUpper : Z;
  minLower : Z;
  minNumbers : Z;
  minSymbols : Z;
}.

Record state : Type := {
  formData : FormData;
  characterTypes : gmap string bool;
}.

(** The values given to [useState]. *)
Definition initial : state := {|
  formData := {| length := 16; minUpper := 2; minLower := 2;
                 minNumbers := 2; minSymbols := 2 |};
  characterTypes :=
    <["uppercase" := true]> (<["lowercase" := true]>
      (<["numbers" := true]> (<["symbols" := true]> ∅)));
|}.

(** [{ ...prev, [field]: value }] on the form. *)
Definition setField (field : string) (value : Z) (prev : FormData)
  : FormData :=
  if String.eqb field "length" then
    {| length := value; minUpper := minUpper prev; minLower := minLower prev;
       minNumbers := minNumbers prev; minSymbols := minSymbols prev |}
  else if String.eqb field "minUpper" then
    {| length := length prev; minUpper := value; minLower := minLower prev;
       minNumbers := minNumbers prev; minSymbols := minSymbols prev |}
  else if String.eqb field "minLower" then
    {| length := length prev; minUpper := minUpper prev; minLower := value;
       minNumbers := minNumbers prev; minSymbols := minSymbols prev |}
  else if String.eqb field "minNumbers" then
    {| length := length prev; minUpper := minUpper prev;
       minLower := minLower prev; minNumbers := value;
       minSymbols := minSymbols prev |}
  else if String.eqb field "minSymbols" then
    {| length := length prev; minUpper := minUpper prev;
       minLower := minLower prev; minNumbers := minNumbers prev;
       minSymbols := value |}
  else prev.

Definition handleInputChange (field : string) (value : Z) (s : state)
  : state :=
  {| formData := setField field value (formData s);
     characterTypes := characterTypes s |}.

Definition fieldMap : gmap string string :=
  <["uppercase" := "minUpper"]> (<["lowercase" := "minLower"]>
    (<["numbers" := "minNumbers"]> (<["symbols" := "minSymbols"]> ∅))).

(** Unchecking a type also sets its minimum to 0. *)
Definition handleCharacterTypeChange (type : string) (checked : bool)
    (s : state) : state :=
  {| characterTypes := <[type := checked]> (characterTypes s);
     formData :=
       if checked then formData s
       else match fieldMap !! type with
            | Some fieldToReset =>
                if String.eqb fieldToReset EmptyString then formData s
                else setField fieldToReset 0 (formData s)
            | None => formData s
            end |}.

(** [characterTypes.key] in a condition: an absent key is [undefined]. *)
Definition checked (s : state) (key : string) : bool :=
  default false (characterTypes s !! key).

(** The minimums of the selected types only. *)
Definition totalMin (s : state) : Z :=
  (if checked s "uppercase" then minUpper (formData s) else 0)
  + (if checked s "lowercase" then minLower (formData s) else 0)
  + (if checked s "numbers" then minNumbers (formData s) else 0)
  + (if checked s "symbols" then minSymbols (formData s) else 0).

(** [totalMin <= formData.length
     && Object.values(characterTypes).some(Boolean)]; the Generate button is
    disabled unless it holds. *)
Definition isValid (s : state) : bool :=
  (totalMin s <=? length (formData s))
  && existsb id (snd <$> map_to_list (characterTypes s)).

(** The parameters [handleGenerate] passes on. *)
Definition generateParams (s : state) : GenerateParams :=
  mkGenerateParams (length (formData s)) (minUpper (formData s))
    (minLower (formData s)) (minNumbers (formData s))
    (minSymbols (formData s)) (checked s "uppercase")
    (checked s "lowercase") (checked s "numbers") (checked s "symbols").

(** The call of [generatePasswordFromSeed] in [handleGenerate], on the seed
    the hook has fetched. *)
Definition generate (s : state) (seedData : string) : outcome string :=
  Lib.generatePasswordFromSeed seedData (generateParams s).

(** The four character types of the form and their minimum fields. *)
Definition types : list string :=
  ["uppercase"; "lowercase"; "numbers"; "symbols"].

Definition minimumOf (s : state) (type : string) : Z :=
  if String.eqb type "uppercase" then minUpper (formData s)
  else if String.eqb type "lowercase" then minLower (formData s)
  else if String.eqb type "numbers" then minNumbers (formData s)
  else minSymbols (formData s).

(** What the controls of the form do: the slider sets the length between 8
    and 32; the number input of a type, disabled while the type is
    unchecked, sets its minimum to any integer; a checkbox checks or
    unchecks its type. *)
Inductive step : state → state → Prop :=
  | step_slider (s : state) (value : Z) :
      8 ≤ value ≤ 32 →
      step s (handleInputChange "length" value s)
  | step_minimum (s : state) (type field : string) (value : Z) :
      fieldMap !! type = Some field →
      checked s type = true →
      step s (handleInputChange field value s)
  | step_checkbox (s : state) (type : string) (value : bool) :
      type ∈ types →
      step s (handleCharacterTypeChange type value s).

Inductive reachable : state → Prop :=
  | reachable_initial : reachable initial
  | reachable_step (s s' : state) : reachable s → step s s' → reachable s'.

End Page.

(** What every state the controls can reach satisfies: the length is in
    the slider's range, the map holds the four types only, and an unchecked
    type has minimum 0. *)
Definition pageInvariant (s : Page.state) : Prop :=
  8 ≤ Page.length (Page.formData s) ≤ 32
  ∧ (∀ key, is_Some (Page.characterTypes s !! key) → key ∈ Page.types)
  ∧ (∀ type, type ∈ Page.types → Page.checked s type = false →
             Page.minimumOf s type = 0).

(** ** The password as a function of the byte stream

    Notions used to state what a run computes: [byteAt position] is the byte
    a one-byte draw hands out at [position], and [adv] is how far one draw
    moves the position. *)

(** The text one turn of a drawing loop appends for the byte [b]. *)
Definition pickChar (cs : string) (b : Z) : string :=
  Js.index cs (Js.rem b (Z.of_nat (String.length cs))).

(** The text [n] turns of a drawing loop append. *)
Fixpoint drawnWord (byteAt : Z → Z) (adv : Z) (cs : string) (n : nat)
    (position : Z) : string :=
  match n with
  | O => EmptyString
  | S n' =>
      pickChar cs (byteAt position)
      +:+ drawnWord byteAt adv cs n' (position + adv)
  end.

(** The array after one swap at index [i] with the byte [b]. *)
Definition swapAt (b : Z) (i : nat) (a : list string) : list string :=
  let j := Js.rem b (Z.of_nat i + 1) in
  Js.set (<[i := default EmptyString (Js.get a j)]> a) j
    (default EmptyString (a !! i)).

(** The array after the swaps at [i], [i - 1], ..., 1. *)
Fixpoint shuffled (byteAt : Z → Z) (adv : Z) (i : nat) (a : list string)
    (position : Z) : list string :=
  match i with
  | O => a
  | S i' => shuffled byteAt adv i' (swapAt (byteAt position) i a)
              (position + adv)
  end.

(** The password before the shuffle. *)
Definition assembled (byteAt : Z → Z) (adv : Z) (params : GenerateParams)
    (position : Z) : string :=
  let nU := Z.to_nat (minUpper params) in
  let nL := Z.to_nat (minLower params) in
  let nN := Z.to_nat (minNumbers params) in
  let nS := Z.to_nat (minSymbols params) in
  let nF := Z.to_nat (length params
              - (minUpper params + minLower params + minNumbers params
                 + minSymbols params)) in
  let pool := Js.join (snd <$> buildAvailableCharsets params) in
  let pL := position + adv * Z.of_nat nU in
  let pN := pL + adv * Z.of_nat nL in
  let pS := pN + adv * Z.of_nat nN in
  let pF := pS + adv * Z.of_nat nS in
  drawnWord byteAt adv (uppercase CHARSETS) nU position
  +:+ drawnWord byteAt adv (lowercase CHARSETS) nL pL
  +:+ drawnWord byteAt adv (numbers CHARSETS) nN pN
  +:+ drawnWord byteAt adv (symbols CHARSETS) nS pS
  +:+ drawnWord byteAt adv pool nF pF.

(** The number of characters the five loops draw. *)
Definition drawCount (params : GenerateParams) : nat :=
  (Z.to_nat (minUpper params) + Z.to_nat (minLower params)
   + Z.to_nat (minNumbers params) + Z.to_nat (minSymbols params)
   + Z.to_nat (length params - totalMinimum params))%nat.

(** The password after the shuffle. *)
Definition synthesized (byteAt : Z → Z) (adv : Z) (params : GenerateParams)
    (position : Z) : string :=
  let passwordArray := Js.split (assembled byteAt adv params position) in
  Js.join (shuffled byteAt adv (List.length passwordArray - 1) passwordArray
             (position + adv * Z.of_nat (drawCount params))).

(** The three validation rules of [generatePasswordFromSeed] let the
    parameters through. *)
Definition passesChecks (params : GenerateParams) : Prop :=
  ¬ noClass params
  ∧ totalMinimum params ≤ length params
  ∧ ¬ minimumWithoutClass params.

(** The messages of the six [throw] statements. *)
Definition errorMessages : list string :=
  noClassMessage :: exceedMessage :: classMessages.

(** The four checks of the route's [GET] let the parameters through. *)
Definition handlerAccepts (params : GenerateParams) : Prop :=
  8 ≤ length params ≤ 32
  ∧ (0 ≤ minUpper params ∧ 0 ≤ minLower params
     ∧ 0 ≤ minNumbers params ∧ 0 ≤ minSymbols params)
  ∧ ¬ noClass params
  ∧ totalMinimum params ≤ length params.

(** The concatenation of the enabled alphabets, [allAvailableChars]. *)
Definition pool (params : GenerateParams) : string :=
  Js.join (snd <$> buildAvailableCharsets params).

(** The form's defaults with the upper-case class unchecked, as the earlier
    page sends them. *)
Definition pUnchecked : GenerateParams := {|
  length := 16; minUpper := 2; minLower := 2; minNumbers := 2; minSymbols := 2;
  includeUpper := false; includeLower := true; includeNumbers := true;
  includeSymbols := true |}.


(** ** Strings and characters *)

Abbreviation chars := list_ascii_of_string.
Abbreviation single := (λ c : ascii, String c EmptyString).

Lemma chars_append (a b : string) : chars (a +:+ b) = chars a ++ chars b.
Proof. induction a as [|c a IH]; simpl; [done|]. by rewrite IH. Qed.

Lemma length_chars (s : string) : List.length (chars s) = String.length s.
Proof. induction s as [|c s IH]; simpl; [done|]. by rewrite IH. Qed.

Lemma join_single (l : list ascii) :
  Js.join (single <$> l) = string_of_list_ascii l.
Proof.
  induction l as [|c l IH]; [done|].
  change (String c (Js.join (single <$> l)) = String c (string_of_list_ascii l)).
  by rewrite IH.
Qed.

Lemma string_get_lt (s : string) (n : nat) :
  (n < String.length s)%nat → ∃ c, String.get n s = Some c ∧ inCharset s c = true.
Proof.
  revert n. induction s as [|d s IH]; simpl; intros n Hn; [lia|].
  destruct n as [|n].
  - exists d. split; [done|]. by rewrite Ascii.eqb_refl.
  - destruct (IH n) as (c & Hc & Hin); [lia|].
    exists c. split; [done|]. rewrite Hin. apply orb_true_r.
Qed.

Lemma countIf_app f (l k : list ascii) :
  countIf f (l ++ k) = (countIf f l + countIf f k)%nat.
Proof. induction l as [|c l IH]; simpl; [done|]. rewrite IH. lia. Qed.

Lemma countIf_Permutation f (l k : list ascii) :
  l ≡ₚ k → countIf f l = countIf f k.
Proof.
  induction 1 as [|c l k _ IH|c d l|l k m _ IH1 _ IH2]; simpl.
  - done.
  - by rewrite IH.
  - lia.
  - by rewrite IH1.
Qed.

Lemma countIf_Forall f (l : list ascii) :
  Forall (λ c, f c = true) l → countIf f l = List.length l.
Proof.
  induction 1 as [|c l Hc _ IH]; simpl; [done|]. rewrite Hc, IH. done.
Qed.

(** ** The monad *)

Lemma bind_ext {A B} (m1 m2 : M A) (k1 k2 : A → M B) :
  (∀ position, m1 position = m2 position) →
  (∀ a position, k1 a position = k2 a position) →
  ∀ position, bind m1 k1 position = bind m2 k2 position.
Proof.
  intros Hm Hk position. unfold bind. rewrite Hm.
  destruct (m2 position) as [[a|e] position']; [apply Hk|done].
Qed.

Lemma bind_return {A B} (m : M A) (k : A → M B) position a position' :
  m position = (Return a, position') →
  bind m k position = k a position'.
Proof. intros Hm. unfold bind. by rewrite Hm. Qed.

Lemma append_assoc (a b c : string) : (a +:+ b) +:+ c = a +:+ (b +:+ c).
Proof.
  induction a as [|x a IH]; [done|].
  change (String x ((a +:+ b) +:+ c) = String x (a +:+ (b +:+ c))).
  by rewrite IH.
Qed.

Lemma append_empty_r (a : string) : a +:+ EmptyString = a.
Proof.
  induction a as [|x a IH]; [done|].
  change (String x (a +:+ EmptyString) = String x a). by rewrite IH.
Qed.

(** ** Validation and the object of available alphabets *)

Lemma gtb_false (a b : Z) : a ≤ b → (a >? b) = false.
Proof. intros H. rewrite Z.gtb_ltb. by apply Z.ltb_ge. Qed.

Lemma gtb_true (a b : Z) : b < a → (a >? b) = true.
Proof. intros H. rewrite Z.gtb_ltb. by apply Z.ltb_lt. Qed.

Lemma class_check_passes (m : Z) (include : bool) :
  (0 < m → include = true) → (m >? 0) && negb include = false.
Proof.
  intros H. destruct (Z.lt_ge_cases 0 m) as [Hm|Hm].
  - rewrite (H Hm). apply andb_false_r.
  - by rewrite gtb_false by lia.
Qed.

Lemma available_nonempty (params : GenerateParams) :
  (includeUpper params || includeLower params || includeNumbers params
   || includeSymbols params) = true →
  (List.length (fst <$> buildAvailableCharsets params) =? 0)%nat = false
  ∧ Js.join (snd <$> buildAvailableCharsets params) ≠ EmptyString.
Proof.
  unfold buildAvailableCharsets.
  destruct (includeUpper params), (includeLower params),
    (includeNumbers params), (includeSymbols params); done.
Qed.

Lemma available_empty (params : GenerateParams) :
  noClass params →
  (List.length (fst <$> buildAvailableCharsets params) =? 0)%nat = true.
Proof.
  intros (HU & HL & HN & HS). unfold buildAvailableCharsets.
  by rewrite HU, HL, HN, HS.
Qed.

Lemma property_class (params : GenerateParams) :
  (includeUpper params = true →
   property (buildAvailableCharsets params) "uppercase"
   = Some (uppercase CHARSETS))
  ∧ (includeLower params = true →
     property (buildAvailableCharsets params) "lowercase"
     = Some (lowercase CHARSETS))
  ∧ (includeNumbers params = true →
     property (buildAvailableCharsets params) "numbers"
     = Some (numbers CHARSETS))
  ∧ (includeSymbols params = true →
     property (buildAvailableCharsets params) "symbols"
     = Some (symbols CHARSETS)).
Proof.
  unfold buildAvailableCharsets.
  destruct (includeUpper params), (includeLower params),
    (includeNumbers params), (includeSymbols params); done.
Qed.

(** ** The body, run with a generator that hands out one byte per call *)

Section BodyFacts.

Variable randomValues : Z → M (list Z).
Variable byteAt : Z → Z.
Variable adv : Z.

Hypothesis draw_one : ∀ position,
  randomValues 1 position = (Return [byteAt position], position + adv).
Hypothesis byte_nonneg : ∀ position, 0 ≤ byteAt position.

Lemma addChar_spec (cs password : string) (position : Z) :
  cs ≠ EmptyString →
  ∃ c, addChar randomValues (Some cs) password position
       = (Return (password +:+ single c), position + adv)
       ∧ inCharset cs c = true.
Proof.
  intros Hcs. unfold addChar.
  rewrite (bind_return _ _ _ _ _ (draw_one position)). simpl.
  assert (0 < Z.of_nat (String.length cs)) as Hlen
    by (destruct cs; [done|simpl; lia]).
  unfold Js.rem.
  destruct (Z.eqb_spec (Z.of_nat (String.length cs)) 0) as [?|_]; [lia|].
  pose proof (Z.rem_bound_pos (byteAt position) _
    (byte_nonneg position) Hlen) as [Hlo Hhi].
  unfold Js.index.
  destruct (Z.ltb_spec (Z.rem (byteAt position)
    (Z.of_nat (String.length cs))) 0) as [?|_]; [lia|].
  destruct (string_get_lt cs (Z.to_nat (Z.rem (byteAt position)
    (Z.of_nat (String.length cs))))) as (c & -> & Hin); [lia|].
  by exists c.
Qed.

Lemma addChars_spec (cs : string) (n : nat) (password : string)
    (position : Z) :
  cs ≠ EmptyString →
  ∃ w, addChars randomValues (Some cs) n password position
       = (Return (password +:+ w), position + adv * Z.of_nat n)
       ∧ String.length w = n
       ∧ Forall (λ c, inCharset cs c = true) (chars w).
Proof.
  intros Hcs. revert password position.
  induction n as [|n IH]; intros password position.
  - exists EmptyString. simpl. unfold ret.
    rewrite append_empty_r, Z.mul_0_r, Z.add_0_r. done.
  - destruct (addChar_spec cs password position Hcs) as (c & Hstep & Hc).
    destruct (IH (password +:+ single c) (position + adv))
      as (w & Hrest & Hlen & Hall).
    exists (String c w). split; [|split].
    + change (addChars randomValues (Some cs) (S n) password position)
        with (bind (addChar randomValues (Some cs) password)
                (λ password', addChars randomValues (Some cs) n password')
                position).
      rewrite (bind_return _ _ _ _ _ Hstep), Hrest, append_assoc.
      simpl. f_equal. lia.
    + simpl. by rewrite Hlen.
    + simpl. by constructor.
Qed.

(** The loop of a class: when validation has passed, either the class is
    enabled and its alphabet is read, or the loop does not run. *)
Lemma addChars_class (charset : option string) (cs : string) (m : Z)
    (password : string) (position : Z) :
  cs ≠ EmptyString →
  (0 < m → charset = Some cs) →
  ∃ w, addChars randomValues charset (Z.to_nat m) password position
       = (Return (password +:+ w), position + adv * Z.of_nat (Z.to_nat m))
       ∧ String.length w = Z.to_nat m
       ∧ Forall (λ c, inCharset cs c = true) (chars w).
Proof.
  intros Hcs Hm. destruct (Z.to_nat m) as [|n] eqn:En.
  - exists EmptyString. simpl. unfold ret.
    rewrite append_empty_r, Z.mul_0_r, Z.add_0_r. done.
  - rewrite Hm by lia. by apply addChars_spec.
Qed.

(** The index [j] of a swap lies in the array: [0 ≤ j ≤ i]. *)
Lemma shuffle_index_range (i : nat) (position : Z) :
  ∃ j : nat, Js.rem_opt ([byteAt position] !! 0%nat) (Z.of_nat i + 1)
             = Some (Z.of_nat j) ∧ (j ≤ i)%nat.
Proof.
  simpl. unfold Js.rem.
  destruct (Z.eqb_spec (Z.of_nat i + 1) 0) as [?|_]; [lia|].
  pose proof (Z.rem_bound_pos (byteAt position) (Z.of_nat i + 1)
    (byte_nonneg position) ltac:(lia)) as [Hlo Hhi].
  exists (Z.to_nat (Z.rem (byteAt position) (Z.of_nat i + 1))).
  split; [|lia]. by rewrite Z2Nat.id.
Qed.

Lemma swapStep_spec (i : nat) (l : list ascii) (position : Z) :
  (i < List.length l)%nat →
  ∃ l', swapStep randomValues i (single <$> l) position
        = (Return (single <$> l'), position + adv)
        ∧ l' ≡ₚ l.
Proof.
  intros Hi. unfold swapStep.
  rewrite (bind_return _ _ _ _ _ (draw_one position)).
  destruct (shuffle_index_range i position) as (j & -> & Hj).
  destruct (lookup_lt_is_Some_2 l i Hi) as [ci Hci].
  destruct (lookup_lt_is_Some_2 l j ltac:(lia)) as [cj Hcj].
  exists (<[j := ci]> (<[i := cj]> l)). split.
  - unfold ret, Js.get, Js.set.
    destruct (Z.ltb_spec (Z.of_nat j) 0) as [?|_]; [lia|].
    rewrite Nat2Z.id, !list_lookup_fmap, Hci, Hcj. simpl.
    by rewrite !list_fmap_insert.
  - by apply Permutation_insert_swap.
Qed.

Lemma shuffle_spec (i : nat) (l : list ascii) (position : Z) :
  (i < List.length l ∨ i = 0)%nat →
  ∃ l', shuffle randomValues i (single <$> l) position
        = (Return (single <$> l'), position + adv * Z.of_nat i)
        ∧ l' ≡ₚ l.
Proof.
  revert l position. induction i as [|i IH]; intros l position Hi.
  - exists l. simpl. unfold ret. by rewrite Z.mul_0_r, Z.add_0_r.
  - destruct (swapStep_spec (S i) l position) as (l1 & Hstep & Hperm1);
      [lia|].
    destruct (IH l1 (position + adv)) as (l2 & Hrest & Hperm2).
    { left. rewrite (Permutation_length Hperm1). lia. }
    exists l2. split; [|by rewrite Hperm2].
    change (shuffle randomValues (S i) (single <$> l) position)
      with (bind (swapStep randomValues (S i) (single <$> l))
              (λ a, shuffle randomValues i a) position).
    rewrite (bind_return _ _ _ _ _ Hstep), Hrest. f_equal. lia.
Qed.

(** What one run of the body does on a valid specification: the words drawn
    for the four classes and for the fill, the shuffled password, and the
    position of the generator afterwards. *)
Lemma body_valid (params : GenerateParams) (position : Z) :
  validSpec params →
  ∃ (wU wL wN wS wF : string) (l : list ascii),
    generatePasswordBody randomValues params position
    = (Return (string_of_list_ascii l),
       position + adv * Z.of_nat (Z.to_nat (length params)
                                  + (Z.to_nat (length params) - 1)))
    ∧ l ≡ₚ chars wU ++ chars wL ++ chars wN ++ chars wS ++ chars wF
    ∧ (String.length wU = Z.to_nat (minUpper params)
       ∧ String.length wL = Z.to_nat (minLower params)
       ∧ String.length wN = Z.to_nat (minNumbers params)
       ∧ String.length wS = Z.to_nat (minSymbols params)
       ∧ String.length wF
         = Z.to_nat (length params - totalMinimum params))
    ∧ Forall (λ c, inCharset (uppercase CHARSETS) c = true) (chars wU)
    ∧ Forall (λ c, inCharset (lowercase CHARSETS) c = true) (chars wL)
    ∧ Forall (λ c, inCharset (numbers CHARSETS) c = true) (chars wN)
    ∧ Forall (λ c, inCharset (symbols CHARSETS) c = true) (chars wS).
Proof.
  intros (HU & HL & HN & HS & Hsum & Hany & HiU & HiL & HiN & HiS).
  destruct (available_nonempty params Hany) as [Hkeys Hpool].
  destruct (property_class params) as (PU & PL & PN & PS).
  unfold generatePasswordBody.
  rewrite Hkeys, (gtb_false _ _ Hsum), !class_check_passes by done.
  destruct (addChars_class (property (buildAvailableCharsets params)
      "uppercase") (uppercase CHARSETS) (minUpper params) EmptyString
      position) as (wU & EU & LU & FU); [done|auto|].
  rewrite (bind_return _ _ _ _ _ EU).
  destruct (addChars_class (property (buildAvailableCharsets params)
      "lowercase") (lowercase CHARSETS) (minLower params)
      (EmptyString +:+ wU)
      (position + adv * Z.of_nat (Z.to_nat (minUpper params))))
    as (wL & EL & LL & FL); [done|auto|].
  rewrite (bind_return _ _ _ _ _ EL).
  destruct (addChars_class (property (buildAvailableCharsets params)
      "numbers") (numbers CHARSETS) (minNumbers params)
      ((EmptyString +:+ wU) +:+ wL)
      (position + adv * Z.of_nat (Z.to_nat (minUpper params))
       + adv * Z.of_nat (Z.to_nat (minLower params))))
    as (wN & EN & LN & FN); [done|auto|].
  rewrite (bind_return _ _ _ _ _ EN).
  destruct (addChars_class (property (buildAvailableCharsets params)
      "symbols") (symbols CHARSETS) (minSymbols params)
      (((EmptyString +:+ wU) +:+ wL) +:+ wN)
      (position + adv * Z.of_nat (Z.to_nat (minUpper params))
       + adv * Z.of_nat (Z.to_nat (minLower params))
       + adv * Z.of_nat (Z.to_nat (minNumbers params))))
    as (wS & ES & LS & FS); [done|auto|].
  rewrite (bind_return _ _ _ _ _ ES).
  destruct (addChars_spec (Js.join (snd <$> buildAvailableCharsets params))
      (Z.to_nat (length params - (minUpper params + minLower params
                                  + minNumbers params + minSymbols params)))
      ((((EmptyString +:+ wU) +:+ wL) +:+ wN) +:+ wS)
      (position + adv * Z.of_nat (Z.to_nat (minUpper params))
       + adv * Z.of_nat (Z.to_nat (minLower params))
       + adv * Z.of_nat (Z.to_nat (minNumbers params))
       + adv * Z.of_nat (Z.to_nat (minSymbols params))))
    as (wF & EF & LF & _); [done|].
  rewrite (bind_return _ _ _ _ _ EF).
  set (password := ((((EmptyString +:+ wU) +:+ wL) +:+ wN) +:+ wS) +:+ wF).
  assert (chars password
          = chars wU ++ chars wL ++ chars wN ++ chars wS ++ chars wF)
    as Hchars.
  { unfold password. rewrite !chars_append. simpl. by rewrite <-!app_assoc. }
  assert (List.length (chars password) = Z.to_nat (length params)) as Hlen.
  { rewrite Hchars, !length_app, !length_chars, LU, LL, LN, LS, LF. lia. }
  unfold Js.split.
  destruct (shuffle_spec (List.length (single <$> chars password) - 1)
      (chars password)
      (position + adv * Z.of_nat (Z.to_nat (minUpper params))
       + adv * Z.of_nat (Z.to_nat (minLower params))
       + adv * Z.of_nat (Z.to_nat (minNumbers params))
       + adv * Z.of_nat (Z.to_nat (minSymbols params))
       + adv * Z.of_nat (Z.to_nat (length params
           - (minUpper params + minLower params + minNumbers params
              + minSymbols params)))))
    as (l & Esh & Hperm); [rewrite length_fmap; lia|].
  rewrite (bind_return _ _ _ _ _ Esh).
  exists wU, wL, wN, wS, wF, l.
  split; [|split; [by rewrite Hperm, Hchars|done]].
  unfold ret. rewrite join_single. f_equal.
  rewrite length_fmap, Hlen.
  replace (Z.of_nat (Z.to_nat (length params)
                     + (Z.to_nat (length params) - 1)))
    with (Z.of_nat (Z.to_nat (minUpper params))
          + Z.of_nat (Z.to_nat (minLower params))
          + Z.of_nat (Z.to_nat (minNumbers params))
          + Z.of_nat (Z.to_nat (minSymbols params))
          + Z.of_nat (Z.to_nat (length params
              - (minUpper params + minLower params + minNumbers params
                 + minSymbols params)))
          + Z.of_nat (Z.to_nat (length params) - 1)) by lia.
  ring.
Qed.

End BodyFacts.

(** ** Two generators that agree on one-byte draws give the same run *)

Section BodyExt.

Variables rv1 rv2 : Z → M (list Z).
Hypothesis same_draw : ∀ position, rv1 1 position = rv2 1 position.

Lemma addChar_ext charset password position :
  addChar rv1 charset password position
  = addChar rv2 charset password position.
Proof. unfold addChar. by apply bind_ext. Qed.

Lemma addChars_ext charset n password position :
  addChars rv1 charset n password position
  = addChars rv2 charset n password position.
Proof.
  revert password position. induction n as [|n IH]; intros; [done|].
  simpl. apply bind_ext; [apply addChar_ext|]. intros. apply IH.
Qed.

Lemma swapStep_ext i a position :
  swapStep rv1 i a position = swapStep rv2 i a position.
Proof. unfold swapStep. by apply bind_ext. Qed.

Lemma shuffle_ext i a position :
  shuffle rv1 i a position = shuffle rv2 i a position.
Proof.
  revert a position. induction i as [|i IH]; intros; [done|].
  simpl. apply bind_ext; [apply swapStep_ext|]. intros. apply IH.
Qed.

Lemma body_ext params position :
  generatePasswordBody rv1 params position
  = generatePasswordBody rv2 params position.
Proof.
  unfold generatePasswordBody.
  repeat (match goal with |- context [if ?b then _ else _] =>
            destruct b; [done|] end).
  repeat (apply bind_ext; [apply addChars_ext|]; intros).
  apply bind_ext; [apply shuffle_ext|]. done.
Qed.

End BodyExt.

(** ** The decoded seed and the two generators *)

Lemma unhex_range (c : ascii) (v : Z) : Js.unhex c = Some v → 0 ≤ v < 16.
Proof.
  unfold Js.unhex.
  repeat (match goal with |- context [if ?b then _ else _] =>
            destruct b eqn:? end); intros [= <-]; lia.
Qed.

Lemma hexDecode_range_upto (n : nat) (s : string) :
  (String.length s ≤ n)%nat →
  Forall (λ b, 0 ≤ b < 256) (Js.hexDecode s).
Proof.
  revert s. induction n as [|n IH]; intros s Hlen.
  - destruct s; [constructor|simpl in Hlen; lia].
  - destruct s as [|a [|b rest]]; simpl; try constructor.
    destruct (Js.unhex a) as [hi|] eqn:Ea; [|constructor].
    destruct (Js.unhex b) as [lo|] eqn:Eb; [|constructor].
    apply unhex_range in Ea, Eb. constructor; [lia|].
    apply IH. simpl in Hlen. lia.
Qed.

Lemma hexDecode_range (s : string) :
  Forall (λ b, 0 ≤ b < 256) (Js.hexDecode s).
Proof. by apply (hexDecode_range_upto (String.length s)). Qed.

Lemma seedByteAt_range (seedBytes : list Z) (position : Z) :
  Forall (λ b, 0 ≤ b < 256) seedBytes →
  0 ≤ seedByteAt seedBytes position < 256.
Proof.
  intros Hall. unfold seedByteAt.
  destruct (Js.rem _ _) as [k|]; [|lia].
  destruct (k <? 0); [lia|].
  destruct (seedBytes !! Z.to_nat k) as [b|] eqn:Hb; simpl; [|lia].
  by apply (Forall_lookup_1 _ _ _ _ Hall Hb).
Qed.

(** On a non-empty seed and a position that is not negative, the byte read
    is the one at [position mod seedBytes.length]. *)
Lemma seedByteAt_mod (seedBytes : list Z) (p : nat) :
  seedBytes ≠ [] →
  seedBytes !! (p mod List.length seedBytes)%nat
  = Some (seedByteAt seedBytes (Z.of_nat p)).
Proof.
  intros Hne. unfold seedByteAt, Js.rem.
  assert (0 < List.length seedBytes)%nat as Hlen
    by (destruct seedBytes; [done|simpl; lia]).
  destruct (Z.eqb_spec (Z.of_nat (List.length seedBytes)) 0) as [?|_]; [lia|].
  rewrite Z.rem_mod_nonneg by lia.
  pose proof (Z.mod_pos_bound (Z.of_nat p)
    (Z.of_nat (List.length seedBytes)) ltac:(lia)) as [Hlo Hhi].
  destruct (Z.ltb_spec (Z.of_nat p `mod` Z.of_nat (List.length seedBytes)) 0)
    as [?|_]; [lia|].
  rewrite <-Nat2Z.inj_mod, Nat2Z.id.
  destruct (lookup_lt_is_Some_2 seedBytes (p mod List.length seedBytes)%nat)
    as [b ->]; [|done].
  apply Nat.mod_upper_bound. lia.
Qed.

Lemma lib_draw_one (seed : string) (position : Z) :
  Lib.createRandomGenerator seed 1 position
  = (Return [seedByteAt (Js.hexDecode seed) position], position + 1).
Proof. reflexivity. Qed.

Lemma route_draw_one (seedBytes : list Z) (position : Z) :
  Route.randomValues seedBytes 1 position
  = (Return [seedByteAt seedBytes 0], position + 0).
Proof. unfold Route.randomValues. simpl. by rewrite Z.add_0_r. Qed.

Lemma lib_fill_snd (seedBytes : list Z) (n : nat) (position : Z) :
  (Lib.fill seedBytes n position).2 = position + Z.of_nat n.
Proof.
  revert position. induction n as [|n IH]; intros position; simpl; [lia|].
  specialize (IH (position + 1)).
  destruct (Lib.fill seedBytes n (position + 1)) as [rest position'].
  simpl in *. lia.
Qed.

Lemma lib_fill_length (seedBytes : list Z) (n : nat) (position : Z) :
  List.length (Lib.fill seedBytes n position).1 = n.
Proof.
  revert position. induction n as [|n IH]; intros position; simpl; [done|].
  specialize (IH (position + 1)).
  destruct (Lib.fill seedBytes n (position + 1)) as [rest position'].
  simpl in *. by rewrite IH.
Qed.

Lemma lib_fill_lookup (seedBytes : list Z) (n k : nat) (position : Z) :
  (k < n)%nat →
  (Lib.fill seedBytes n position).1 !! k
  = Some (seedByteAt seedBytes (position + Z.of_nat k)).
Proof.
  revert k position. induction n as [|n IH]; intros k position Hk; [lia|].
  simpl. specialize (IH (k - 1)%nat (position + 1)).
  destruct (Lib.fill seedBytes n (position + 1)) as [rest position'].
  destruct k as [|k]; simpl in *.
  - by rewrite Z.add_0_r.
  - rewrite Nat.sub_0_r in IH. rewrite IH by lia. do 2 f_equal. lia.
Qed.

(** Any sequence of calls of the library's generator hands out the bytes
    read at consecutive positions. *)
Lemma lib_draws (seed : string) (lens : list Z) (position : Z) :
  Forall (λ len, 0 ≤ len) lens →
  ∃ out, draws (Lib.createRandomGenerator seed) lens position
         = (Return out, position + sumZ lens)
         ∧ Z.of_nat (List.length out) = sumZ lens
         ∧ ∀ k : nat, (k < List.length out)%nat →
             out !! k
             = Some (seedByteAt (Js.hexDecode seed) (position + Z.of_nat k)).
Proof.
  intros Hall. revert position.
  induction Hall as [|len lens Hlen _ IH]; intros position.
  - exists []. simpl. unfold ret. rewrite Z.add_0_r.
    split; [done|]. split; [done|]. simpl. lia.
  - destruct (IH (position + len)) as (more & Emore & Lmore & Kmore).
    pose proof (lib_fill_snd (Js.hexDecode seed) (Z.to_nat len) position)
      as Hsnd.
    pose proof (lib_fill_length (Js.hexDecode seed) (Z.to_nat len) position)
      as Hlength.
    pose proof (λ k, lib_fill_lookup (Js.hexDecode seed) (Z.to_nat len) k
      position) as Hlookup.
    destruct (Lib.fill (Js.hexDecode seed) (Z.to_nat len) position)
      as [bytes position'] eqn:Efill. simpl in Hsnd, Hlength, Hlookup.
    assert (Lib.createRandomGenerator seed len position
            = (Return bytes, position + len)) as Edraw.
    { unfold Lib.createRandomGenerator.
      destruct (Z.ltb_spec len 0) as [?|_]; [lia|].
      rewrite Efill. f_equal. lia. }
    exists (bytes ++ more). split; [|split].
    + simpl. rewrite (bind_return _ _ _ _ _ Edraw).
      rewrite (bind_return _ _ _ _ _ Emore). unfold ret. f_equal. lia.
    + rewrite length_app. simpl. lia.
    + intros k Hk. rewrite length_app in Hk.
      destruct (decide (k < List.length bytes)%nat) as [Hlt|Hge].
      * rewrite lookup_app_l by done. apply Hlookup. lia.
      * rewrite lookup_app_r by lia. rewrite Kmore by lia.
        do 2 f_equal. lia.
Qed.

(** The library's function on a valid specification. *)
Lemma lib_valid (seed : string) (params : GenerateParams) :
  validSpec params →
  ∃ (wU wL wN wS wF : string) (l : list ascii),
    Lib.run seed params
    = (Return (string_of_list_ascii l),
       Z.of_nat (Z.to_nat (length params)
                 + (Z.to_nat (length params) - 1)))
    ∧ l ≡ₚ chars wU ++ chars wL ++ chars wN ++ chars wS ++ chars wF
    ∧ (String.length wU = Z.to_nat (minUpper params)
       ∧ String.length wL = Z.to_nat (minLower params)
       ∧ String.length wN = Z.to_nat (minNumbers params)
       ∧ String.length wS = Z.to_nat (minSymbols params)
       ∧ String.length wF
         = Z.to_nat (length params - totalMinimum params))
    ∧ Forall (λ c, inCharset (uppercase CHARSETS) c = true) (chars wU)
    ∧ Forall (λ c, inCharset (lowercase CHARSETS) c = true) (chars wL)
    ∧ Forall (λ c, inCharset (numbers CHARSETS) c = true) (chars wN)
    ∧ Forall (λ c, inCharset (symbols CHARSETS) c = true) (chars wS).
Proof.
  intros Hvalid.
  destruct (body_valid (Lib.createRandomGenerator seed)
    (seedByteAt (Js.hexDecode seed)) 1 (lib_draw_one seed)
    (λ position, proj1 (seedByteAt_range _ position (hexDecode_range seed)))
    params 0 Hvalid) as (wU & wL & wN & wS & wF & l & Erun & Hrest).
  exists wU, wL, wN, wS, wF, l. split; [|done].
  unfold Lib.run. rewrite Erun. f_equal. lia.
Qed.

Lemma length_string_of_list_ascii (l : list ascii) :
  String.length (string_of_list_ascii l) = List.length l.
Proof. induction l as [|c l IH]; simpl; [done|]. by rewrite IH. Qed.

Lemma seedByteAt_first (seedBytes : list Z) (b : Z) :
  head seedBytes = Some b → seedByteAt seedBytes 0 = b.
Proof.
  destruct seedBytes as [|b' rest]; intros [= ->].
  unfold seedByteAt, Js.rem.
  destruct (Z.eqb_spec (Z.of_nat (List.length (b :: rest))) 0) as [E|_];
    [simpl in E; lia|].
  by rewrite Z.rem_0_l by (simpl; lia).
Qed.

Lemma seedByteAt_empty (position : Z) : seedByteAt [] position = 0.
Proof. reflexivity. Qed.

Lemma seedByteAt_single_zero (position : Z) : seedByteAt [0] position = 0.
Proof.
  unfold seedByteAt, Js.rem. simpl. rewrite Z.rem_1_r. reflexivity.
Qed.

(** ** Validation, for any generator *)

Section Validation.

Variables randomValues randomValues' : Z → M (list Z).

Lemma body_no_class params position :
  noClass params →
  generatePasswordBody randomValues params position
  = (Throw (Error "At least one character type must be selected"), position).
Proof.
  intros Hnone. unfold generatePasswordBody.
  by rewrite (available_empty params Hnone).
Qed.

Lemma not_noClass params :
  ¬ noClass params →
  (includeUpper params || includeLower params || includeNumbers params
   || includeSymbols params) = true.
Proof.
  unfold noClass.
  destruct (includeUpper params), (includeLower params),
    (includeNumbers params), (includeSymbols params); try done.
  intros H. destruct H. done.
Qed.

Lemma body_exceed params position :
  ¬ noClass params →
  length params < totalMinimum params →
  generatePasswordBody randomValues params position
  = (Throw (Error "Minimum requirements exceed password length"), position).
Proof.
  intros Hsome Hsum. unfold generatePasswordBody.
  destruct (available_nonempty params (not_noClass params Hsome)) as [-> _].
  by rewrite gtb_true.
Qed.

Lemma body_min_without_class params position position' :
  ¬ noClass params →
  totalMinimum params ≤ length params →
  minimumWithoutClass params →
  ∃ msg, msg ∈ classMessages
         ∧ generatePasswordBody randomValues params position
           = (Throw (Error msg), position)
         ∧ generatePasswordBody randomValues' params position'
           = (Throw (Error msg), position').
Proof.
  intros Hsome Hsum Hmiss. unfold generatePasswordBody.
  destruct (available_nonempty params (not_noClass params Hsome)) as [-> _].
  rewrite gtb_false by done. unfold classMessages.
  destruct ((minUpper params >? 0) && negb (includeUpper params)) eqn:EU.
  { eexists; split; [|split; reflexivity]; repeat constructor. }
  destruct ((minLower params >? 0) && negb (includeLower params)) eqn:EL.
  { eexists; split; [|split; reflexivity]; repeat constructor. }
  destruct ((minNumbers params >? 0) && negb (includeNumbers params)) eqn:EN.
  { eexists; split; [|split; reflexivity]; repeat constructor. }
  destruct ((minSymbols params >? 0) && negb (includeSymbols params)) eqn:ES.
  { eexists; split; [|split; reflexivity]; repeat constructor. }
  exfalso.
  destruct Hmiss as [[Hm Hi]|[[Hm Hi]|[[Hm Hi]|[Hm Hi]]]];
    rewrite Hi, (gtb_true _ _ Hm) in *; done.
Qed.

End Validation.

(** ** The properties of the specification *)

(** C1: the route's copy and the library's function do not return the same
    password. On the 32-byte seed [00 01 .. 1f] and the default parameters
    both return, with different passwords: the route's helper hands out the
    first seed byte at every draw. *)
Theorem C1_route_differs_from_library :
  Lib.generatePasswordFromSeed seedA p16 = Return "BdM*LJNQ7PKI&6cA"
  ∧ Route.generatePasswordFromSeed seedA p16 = Return "Aaa22!!AAAAAAAAA"
  ∧ Lib.generatePasswordFromSeed seedA p16
    ≠ Route.generatePasswordFromSeed seedA p16.
Proof. split; [|split]; [vm_compute; reflexivity..|vm_compute; discriminate]. Qed.

(** C2: the generator made by [createRandomGenerator] is a cursor over the
    seed. Over any sequence of calls from its construction, the byte handed
    out at logical position [p] is [seed[p mod len(seed)]], and the position
    counter ends at the number of bytes handed out. *)
Theorem C2_generator_cursor (seed : string) (lens : list Z) :
  Js.hexDecode seed ≠ [] →
  Forall (λ len, 0 ≤ len) lens →
  ∃ out,
    draws (Lib.createRandomGenerator seed) lens 0 = (Return out, sumZ lens)
    ∧ Z.of_nat (List.length out) = sumZ lens
    ∧ ∀ p : nat, (p < List.length out)%nat →
        out !! p
        = Js.hexDecode seed !! (p mod List.length (Js.hexDecode seed))%nat.
Proof.
  intros Hne Hlens.
  destruct (lib_draws seed lens 0 Hlens) as (out & Erun & Hlen & Hbytes).
  exists out. rewrite Z.add_0_l in Erun. split; [done|]. split; [done|].
  intros p Hp. rewrite (Hbytes p Hp), Z.add_0_l.
  symmetry. by apply seedByteAt_mod.
Qed.

Lemma C2_generator_cursor_witness :
  ∃ out,
    draws (Lib.createRandomGenerator "0a0b0c") [2; 0; 3; 1] 0
    = (Return out, sumZ [2; 0; 3; 1])
    ∧ Z.of_nat (List.length out) = sumZ [2; 0; 3; 1]
    ∧ ∀ p : nat, (p < List.length out)%nat →
        out !! p
        = Js.hexDecode "0a0b0c"
            !! (p mod List.length (Js.hexDecode "0a0b0c"))%nat.
Proof.
  apply (C2_generator_cursor "0a0b0c" [2; 0; 3; 1]).
  - vm_compute. discriminate.
  - repeat constructor; lia.
Defined.

(** C3: the Upper alphabet has no [O] and the Digit alphabet has neither
    [0] nor [1], but the Lower alphabet does contain [l]: with the one-byte
    seed [0b] and lower-case letters only, the password is made of [l]. *)
Theorem C3_lowercase_contains_l :
  inCharset (uppercase CHARSETS) "O" = false
  ∧ inCharset (numbers CHARSETS) "0" = false
  ∧ inCharset (numbers CHARSETS) "1" = false
  ∧ inCharset (lowercase CHARSETS) "l" = true
  ∧ Lib.generatePasswordFromSeed "0b" pLower = Return "llllllll".
Proof. repeat split; vm_compute; reflexivity. Qed.

(** C4, as the claim states it, fails: with the empty seed and a valid
    specification the function returns a password and throws nothing. *)
Lemma C4_empty_seed_returns :
  Js.hexDecode "" = []
  ∧ Lib.generatePasswordFromSeed "" p8 = Return "AAAAAAAA"
  ∧ ¬ ∃ e, Lib.generatePasswordFromSeed "" p8 = Throw e.
Proof.
  split; [reflexivity|]. split; [vm_compute; reflexivity|].
  intros [e He]. vm_compute in He. discriminate.
Qed.

(** C4, amended: the seed is not validated. With a seed that decodes to no
    bytes every drawn byte is 0: the call returns or throws exactly as it
    does with the one-byte seed [00], and on a valid specification it
    returns a password. *)
Theorem C4_empty_seed_as_zero (seed : string) (params : GenerateParams) :
  Js.hexDecode seed = [] →
  Lib.generatePasswordFromSeed seed params
  = Lib.generatePasswordFromSeed "00" params
  ∧ (validSpec params →
     ∃ password, Lib.generatePasswordFromSeed seed params = Return password).
Proof.
  intros Hempty. split.
  - unfold Lib.generatePasswordFromSeed, Lib.run. f_equal.
    apply body_ext. intros position.
    rewrite !lib_draw_one, Hempty.
    change (Js.hexDecode "00") with [0].
    by rewrite seedByteAt_empty, seedByteAt_single_zero.
  - intros Hvalid.
    destruct (lib_valid seed params Hvalid) as (_ & _ & _ & _ & _ & l & E & _).
    exists (string_of_list_ascii l).
    unfold Lib.generatePasswordFromSeed. by rewrite E.
Qed.

Lemma C4_empty_seed_as_zero_witness :
  Lib.generatePasswordFromSeed "zz" p8
  = Lib.generatePasswordFromSeed "00" p8
  ∧ (validSpec p8 →
     ∃ password, Lib.generatePasswordFromSeed "zz" p8 = Return password).
Proof. apply (C4_empty_seed_as_zero "zz" p8). reflexivity. Defined.

(** C5: validation comes before any draw and in a fixed order, in both
    copies of the function. With no class enabled the call throws the
    no-class error whatever the minimums are; otherwise, with minimums that
    exceed the length, it throws the length error even when a disabled class
    has a minimum; otherwise, when a disabled class has a positive minimum,
    it throws one of the four class errors. No byte is drawn in any case. *)
Theorem C5_validation_order (seed : string) (params : GenerateParams) :
  (noClass params →
   Lib.run seed params = (Throw (Error noClassMessage), 0)
   ∧ Route.generatePasswordFromSeed seed params
     = Throw (Error noClassMessage))
  ∧ (¬ noClass params → length params < totalMinimum params →
     Lib.run seed params = (Throw (Error exceedMessage), 0)
     ∧ Route.generatePasswordFromSeed seed params
       = Throw (Error exceedMessage))
  ∧ (¬ noClass params → totalMinimum params ≤ length params →
     minimumWithoutClass params →
     ∃ msg, msg ∈ classMessages
            ∧ Lib.run seed params = (Throw (Error msg), 0)
            ∧ Route.generatePasswordFromSeed seed params
              = Throw (Error msg)).
Proof.
  unfold Lib.run, Route.generatePasswordFromSeed. split; [|split].
  - intros Hnone. by rewrite !body_no_class.
  - intros Hsome Hsum. by rewrite !body_exceed.
  - intros Hsome Hsum Hmiss.
    destruct (body_min_without_class (Lib.createRandomGenerator seed)
      (Route.randomValues (Js.hexDecode seed)) params 0 0 Hsome Hsum Hmiss)
      as (msg & Hin & E & E').
    exists msg. by rewrite E, E'.
Qed.

Lemma C5_validation_order_witness :
  (Lib.run seedA pNone = (Throw (Error noClassMessage), 0)
   ∧ Route.generatePasswordFromSeed seedA pNone
     = Throw (Error noClassMessage))
  ∧ (Lib.run seedA pExceed = (Throw (Error exceedMessage), 0)
     ∧ Route.generatePasswordFromSeed seedA pExceed
       = Throw (Error exceedMessage))
  ∧ (∃ msg, msg ∈ classMessages
            ∧ Lib.run seedA pMissing = (Throw (Error msg), 0)
            ∧ Route.generatePasswordFromSeed seedA pMissing
              = Throw (Error msg)).
Proof.
  split; [|split].
  - apply (proj1 (C5_validation_order seedA pNone)). repeat split.
  - apply (proj1 (proj2 (C5_validation_order seedA pExceed))).
    + intros (_ & H & _). discriminate H.
    + unfold totalMinimum. simpl. lia.
  - apply (proj2 (proj2 (C5_validation_order seedA pMissing))).
    + intros (_ & H & _). discriminate H.
    + unfold totalMinimum. simpl. lia.
    + left. split; [simpl; lia|reflexivity].
Defined.

(** The words drawn on a valid specification make up [length] characters. *)
Lemma valid_word_lengths (params : GenerateParams)
    (wU wL wN wS wF : string) :
  validSpec params →
  String.length wU = Z.to_nat (minUpper params)
  ∧ String.length wL = Z.to_nat (minLower params)
  ∧ String.length wN = Z.to_nat (minNumbers params)
  ∧ String.length wS = Z.to_nat (minSymbols params)
  ∧ String.length wF = Z.to_nat (length params - totalMinimum params) →
  Z.of_nat (List.length
    (chars wU ++ chars wL ++ chars wN ++ chars wS ++ chars wF))
  = length params.
Proof.
  intros (HU & HL & HN & HS & Hsum & _) (LU & LL & LN & LS & LF).
  rewrite !length_app, !length_chars, LU, LL, LN, LS, LF.
  unfold totalMinimum. lia.
Qed.

(** C6: on a non-empty seed and a valid specification the function returns
    a password of exactly [length] characters. *)
Theorem C6_length (seed : string) (params : GenerateParams) :
  Js.hexDecode seed ≠ [] →
  validSpec params →
  ∃ password,
    Lib.generatePasswordFromSeed seed params = Return password
    ∧ Z.of_nat (String.length password) = length params.
Proof.
  intros _ Hvalid.
  destruct (lib_valid seed params Hvalid)
    as (wU & wL & wN & wS & wF & l & E & Hperm & Hlens & _).
  exists (string_of_list_ascii l). split.
  - unfold Lib.generatePasswordFromSeed. by rewrite E.
  - rewrite length_string_of_list_ascii, (Permutation_length Hperm).
    by apply valid_word_lengths.
Qed.

Lemma p16_valid : validSpec p16.
Proof. unfold validSpec. simpl. repeat split; lia. Defined.

Lemma seedA_nonempty : Js.hexDecode seedA ≠ [].
Proof. vm_compute. discriminate. Defined.

Lemma C6_length_witness :
  ∃ password,
    Lib.generatePasswordFromSeed seedA p16 = Return password
    ∧ Z.of_nat (String.length password) = length p16.
Proof. apply (C6_length seedA p16 seedA_nonempty p16_valid). Defined.

(** C7: on a non-empty seed and a valid specification, the returned
    password holds, for every enabled class, at least the class's minimum
    of characters of the class's alphabet. *)
Theorem C7_minimums (seed : string) (params : GenerateParams) :
  Js.hexDecode seed ≠ [] →
  validSpec params →
  ∃ password,
    Lib.generatePasswordFromSeed seed params = Return password
    ∧ (includeUpper params = true →
       minUpper params
       ≤ Z.of_nat (countClass (uppercase CHARSETS) password))
    ∧ (includeLower params = true →
       minLower params
       ≤ Z.of_nat (countClass (lowercase CHARSETS) password))
    ∧ (includeNumbers params = true →
       minNumbers params
       ≤ Z.of_nat (countClass (numbers CHARSETS) password))
    ∧ (includeSymbols params = true →
       minSymbols params
       ≤ Z.of_nat (countClass (symbols CHARSETS) password)).
Proof.
  intros _ Hvalid.
  destruct (lib_valid seed params Hvalid)
    as (wU & wL & wN & wS & wF & l & E & Hperm & Hlens & FU & FL & FN & FS).
  destruct Hlens as (LU & LL & LN & LS & _).
  exists (string_of_list_ascii l). split.
  { unfold Lib.generatePasswordFromSeed. by rewrite E. }
  unfold countClass. rewrite list_ascii_of_string_of_list_ascii.
  apply countIf_Forall in FU, FL, FN, FS.
  rewrite length_chars in FU, FL, FN, FS.
  repeat split; intros _;
    rewrite (countIf_Permutation _ _ _ Hperm), !countIf_app; lia.
Qed.

Lemma C7_minimums_witness :
  ∃ password,
    Lib.generatePasswordFromSeed seedA p16 = Return password
    ∧ (includeUpper p16 = true →
       minUpper p16 ≤ Z.of_nat (countClass (uppercase CHARSETS) password))
    ∧ (includeLower p16 = true →
       minLower p16 ≤ Z.of_nat (countClass (lowercase CHARSETS) password))
    ∧ (includeNumbers p16 = true →
       minNumbers p16 ≤ Z.of_nat (countClass (numbers CHARSETS) password))
    ∧ (includeSymbols p16 = true →
       minSymbols p16 ≤ Z.of_nat (countClass (symbols CHARSETS) password)).
Proof. apply (C7_minimums seedA p16 seedA_nonempty p16_valid). Defined.

(** C8: on a non-empty seed and a valid specification with [length ≥ 1],
    one call draws exactly [2 * length - 1] bytes from its generator,
    whichever classes are enabled. *)
Theorem C8_bytes_drawn (seed : string) (params : GenerateParams) :
  Js.hexDecode seed ≠ [] →
  validSpec params →
  1 ≤ length params →
  Lib.bytesDrawn seed params = 2 * length params - 1.
Proof.
  intros _ Hvalid Hlen.
  destruct (lib_valid seed params Hvalid)
    as (wU & wL & wN & wS & wF & l & E & _).
  unfold Lib.bytesDrawn. rewrite E. simpl. lia.
Qed.

Lemma C8_bytes_drawn_witness : Lib.bytesDrawn seedA p16 = 2 * length p16 - 1.
Proof.
  apply (C8_bytes_drawn seedA p16 seedA_nonempty p16_valid). simpl. lia.
Defined.

(** C9: with the seed of 32 zero bytes and the specification of length 8
    with two upper-case characters at least and all classes enabled, every
    drawn byte is 0, the call draws 2 + 6 + 7 bytes and the function returns
    ["AAAAAAAA"]. *)
Theorem C9_all_zero_seed :
  Js.hexDecode zeros64 = replicate 32 0
  ∧ (∀ position, seedByteAt (Js.hexDecode zeros64) (Z.of_nat position) = 0)
  ∧ Lib.bytesDrawn zeros64 p8 = 2 + 6 + 7
  ∧ Lib.generatePasswordFromSeed zeros64 p8 = Return "AAAAAAAA".
Proof.
  assert (Js.hexDecode zeros64 = replicate 32 0) as Hzeros
    by (vm_compute; reflexivity).
  split; [done|]. split; [|split; vm_compute; reflexivity].
  intros position. rewrite Hzeros.
  pose proof (seedByteAt_mod (replicate 32 0) position
    ltac:(discriminate)) as H.
  by apply lookup_replicate in H as [H _].
Qed.

(** C10: in the route's copy every one-byte draw is the first byte of the
    decoded seed, so two seeds that decode to non-empty bytes with the same
    first byte give the same result on every parameter record. *)
Theorem C10_route_first_byte_only (seed1 seed2 : string)
    (params : GenerateParams) (b : Z) :
  head (Js.hexDecode seed1) = Some b →
  head (Js.hexDecode seed2) = Some b →
  (∀ position,
     Route.randomValues (Js.hexDecode seed1) 1 position
     = (Return [b], position))
  ∧ Route.generatePasswordFromSeed seed1 params
    = Route.generatePasswordFromSeed seed2 params.
Proof.
  intros H1 H2.
  assert (∀ seed position, head (Js.hexDecode seed) = Some b →
    Route.randomValues (Js.hexDecode seed) 1 position
    = (Return [b], position)) as Hdraw.
  { intros seed position H.
    by rewrite route_draw_one, (seedByteAt_first _ _ H), Z.add_0_r. }
  split; [intros; by apply Hdraw|].
  unfold Route.generatePasswordFromSeed. f_equal.
  apply body_ext. intros position. by rewrite !Hdraw.
Qed.

Lemma C10_route_first_byte_only_witness :
  (∀ position,
     Route.randomValues (Js.hexDecode seedA) 1 position
     = (Return [0], position))
  ∧ Route.generatePasswordFromSeed seedA p16
    = Route.generatePasswordFromSeed seedB p16.
Proof.
  apply (C10_route_first_byte_only seedA seedB p16 0); reflexivity.
Defined.

(** ** A run of the body computes a function of the byte stream *)

Lemma passesChecks_classes (params : GenerateParams) :
  passesChecks params →
  (includeUpper params || includeLower params || includeNumbers params
   || includeSymbols params) = true
  ∧ (0 < minUpper params → includeUpper params = true)
  ∧ (0 < minLower params → includeLower params = true)
  ∧ (0 < minNumbers params → includeNumbers params = true)
  ∧ (0 < minSymbols params → includeSymbols params = true).
Proof.
  intros (Hsome & _ & Hmiss). split; [by apply not_noClass|].
  unfold minimumWithoutClass in Hmiss.
  repeat split; intros Hm.
  - destruct (includeUpper params); [done|]. destruct Hmiss. auto.
  - destruct (includeLower params); [done|]. destruct Hmiss. auto.
  - destruct (includeNumbers params); [done|]. destruct Hmiss. auto 6.
  - destruct (includeSymbols params); [done|]. destruct Hmiss. auto 6.
Qed.

Lemma validSpec_passesChecks (params : GenerateParams) :
  validSpec params → passesChecks params.
Proof.
  intros (_ & _ & _ & _ & Hsum & Hany & HiU & HiL & HiN & HiS).
  split; [|split].
  - intros (HU & HL & HN & HS). by rewrite HU, HL, HN, HS in Hany.
  - done.
  - intros [[Hm Hi]|[[Hm Hi]|[[Hm Hi]|[Hm Hi]]]];
      [rewrite HiU in Hi|rewrite HiL in Hi|rewrite HiN in Hi
      |rewrite HiS in Hi]; done.
Qed.

Section BodyExact.

Variable randomValues : Z → M (list Z).
Variable byteAt : Z → Z.
Variable adv : Z.

Hypothesis draw_one : ∀ position,
  randomValues 1 position = (Return [byteAt position], position + adv).

Lemma addChar_exact (cs password : string) (position : Z) :
  addChar randomValues (Some cs) password position
  = (Return (password +:+ pickChar cs (byteAt position)), position + adv).
Proof.
  unfold addChar. by rewrite (bind_return _ _ _ _ _ (draw_one position)).
Qed.

Lemma addChars_exact (cs : string) (n : nat) (password : string)
    (position : Z) :
  addChars randomValues (Some cs) n password position
  = (Return (password +:+ drawnWord byteAt adv cs n position),
     position + adv * Z.of_nat n).
Proof.
  revert password position. induction n as [|n IH]; intros password position.
  - simpl. unfold ret. by rewrite append_empty_r, Z.mul_0_r, Z.add_0_r.
  - change (addChars randomValues (Some cs) (S n) password position)
      with (bind (addChar randomValues (Some cs) password)
              (λ password', addChars randomValues (Some cs) n password')
              position).
    rewrite (bind_return _ _ _ _ _ (addChar_exact cs password position)), IH.
    rewrite append_assoc. f_equal. lia.
Qed.

Lemma addChars_class_exact (charset : option string) (cs : string) (m : Z)
    (password : string) (position : Z) :
  (0 < m → charset = Some cs) →
  addChars randomValues charset (Z.to_nat m) password position
  = (Return (password +:+ drawnWord byteAt adv cs (Z.to_nat m) position),
     position + adv * Z.of_nat (Z.to_nat m)).
Proof.
  intros Hm. destruct (Z.to_nat m) as [|n] eqn:En.
  - simpl. unfold ret. by rewrite append_empty_r, Z.mul_0_r, Z.add_0_r.
  - rewrite Hm by lia. apply addChars_exact.
Qed.

Lemma swapStep_exact (i : nat) (a : list string) (position : Z) :
  swapStep randomValues i a position
  = (Return (swapAt (byteAt position) i a), position + adv).
Proof.
  unfold swapStep. by rewrite (bind_return _ _ _ _ _ (draw_one position)).
Qed.

Lemma shuffle_exact (i : nat) (a : list string) (position : Z) :
  shuffle randomValues i a position
  = (Return (shuffled byteAt adv i a position), position + adv * Z.of_nat i).
Proof.
  revert a position. induction i as [|i IH]; intros a position.
  - simpl. unfold ret. by rewrite Z.mul_0_r, Z.add_0_r.
  - change (shuffle randomValues (S i) a position)
      with (bind (swapStep randomValues (S i) a)
              (λ a', shuffle randomValues i a') position).
    rewrite (bind_return _ _ _ _ _ (swapStep_exact (S i) a position)), IH.
    simpl. f_equal. lia.
Qed.

(** When the checks pass the body returns [synthesized], and the position
    moves by one draw per character and one per swap. *)
Lemma body_exact (params : GenerateParams) (position : Z) :
  passesChecks params →
  generatePasswordBody randomValues params position
  = (Return (synthesized byteAt adv params position),
     position
     + adv * Z.of_nat (drawCount params
         + (String.length (assembled byteAt adv params position) - 1))).
Proof.
  intros Hpass.
  destruct (passesChecks_classes params Hpass) as (Hany & HiU & HiL & HiN & HiS).
  destruct Hpass as (_ & Hsum & _). unfold totalMinimum in Hsum.
  destruct (available_nonempty params Hany) as [Hkeys _].
  destruct (property_class params) as (PU & PL & PN & PS).
  unfold generatePasswordBody.
  rewrite Hkeys, (gtb_false _ _ Hsum), !class_check_passes by done.
  rewrite (bind_return _ _ _ _ _
    (addChars_class_exact _ (uppercase CHARSETS) (minUpper params) _ _
       (λ H, PU (HiU H)))).
  rewrite (bind_return _ _ _ _ _
    (addChars_class_exact _ (lowercase CHARSETS) (minLower params) _ _
       (λ H, PL (HiL H)))).
  rewrite (bind_return _ _ _ _ _
    (addChars_class_exact _ (numbers CHARSETS) (minNumbers params) _ _
       (λ H, PN (HiN H)))).
  rewrite (bind_return _ _ _ _ _
    (addChars_class_exact _ (symbols CHARSETS) (minSymbols params) _ _
       (λ H, PS (HiS H)))).
  rewrite (bind_return _ _ _ _ _ (addChars_exact _ _ _ _)).
  rewrite (bind_return _ _ _ _ _ (shuffle_exact _ _ _)).
  unfold ret, synthesized, assembled, drawCount, totalMinimum.
  rewrite !append_assoc.
  change (EmptyString +:+ ?x) with x.
  unfold Js.split at 3. rewrite length_fmap, length_chars.
  f_equal; [do 3 f_equal|]; rewrite !Nat2Z.inj_add; ring.
Qed.

End BodyExact.

(** ** Alphabets *)

Lemma inCharset_append (a b : string) (c : ascii) :
  inCharset (a +:+ b) c = inCharset a c || inCharset b c.
Proof.
  induction a as [|d a IH]; [done|].
  change (Ascii.eqb c d || inCharset (a +:+ b) c
          = Ascii.eqb c d || inCharset a c || inCharset b c).
  rewrite IH. by destruct (Ascii.eqb c d).
Qed.

Lemma inCharset_pool (params : GenerateParams) (c : ascii) :
  inCharset (pool params) c
  = (includeUpper params && inCharset (uppercase CHARSETS) c)
    || (includeLower params && inCharset (lowercase CHARSETS) c)
    || (includeNumbers params && inCharset (numbers CHARSETS) c)
    || (includeSymbols params && inCharset (symbols CHARSETS) c).
Proof.
  assert (pool params
          = (if includeUpper params then uppercase CHARSETS else EmptyString)
            +:+ (if includeLower params then lowercase CHARSETS
                 else EmptyString)
            +:+ (if includeNumbers params then numbers CHARSETS
                 else EmptyString)
            +:+ (if includeSymbols params then symbols CHARSETS
                 else EmptyString)) as ->.
  { unfold pool, buildAvailableCharsets.
    destruct (includeUpper params), (includeLower params),
      (includeNumbers params), (includeSymbols params); reflexivity. }
  rewrite !inCharset_append.
  destruct (includeUpper params), (includeLower params),
    (includeNumbers params), (includeSymbols params); simpl;
    rewrite ?orb_false_r; try reflexivity; by rewrite ?orb_assoc.
Qed.

(** No character belongs to two of the four alphabets. *)
Lemma alphabets_disjoint (c : ascii) :
  ((if inCharset (uppercase CHARSETS) c then 1 else 0)
   + (if inCharset (lowercase CHARSETS) c then 1 else 0)
   + (if inCharset (numbers CHARSETS) c then 1 else 0)
   + (if inCharset (symbols CHARSETS) c then 1 else 0) ≤ 1)%nat.
Proof. destruct c as [[] [] [] [] [] [] [] []]; vm_compute; lia. Qed.

Lemma countIf_zero f (l : list ascii) :
  Forall (λ c, f c = false) l → countIf f l = O.
Proof. induction 1 as [|c l Hc _ IH]; simpl; [done|]. by rewrite Hc, IH. Qed.

Lemma countIf_le_length f (l : list ascii) : (countIf f l ≤ List.length l)%nat.
Proof. induction l as [|c l IH]; simpl; [done|]. destruct (f c); lia. Qed.

(** ** The stream function on bytes that are not negative *)

Section StreamFacts.

Variable byteAt : Z → Z.
Variable adv : Z.
Hypothesis byte_nonneg : ∀ position, 0 ≤ byteAt position.

Lemma pickChar_single (cs : string) (b : Z) :
  cs ≠ EmptyString → 0 ≤ b →
  ∃ c, pickChar cs b = single c ∧ inCharset cs c = true.
Proof.
  intros Hcs Hb. unfold pickChar, Js.rem.
  assert (0 < Z.of_nat (String.length cs)) as Hlen
    by (destruct cs; [done|simpl; lia]).
  destruct (Z.eqb_spec (Z.of_nat (String.length cs)) 0) as [?|_]; [lia|].
  pose proof (Z.rem_bound_pos b _ Hb Hlen) as [Hlo Hhi].
  unfold Js.index.
  destruct (Z.ltb_spec (Z.rem b (Z.of_nat (String.length cs))) 0)
    as [?|_]; [lia|].
  destruct (string_get_lt cs
    (Z.to_nat (Z.rem b (Z.of_nat (String.length cs)))))
    as (c & -> & Hin); [lia|].
  by exists c.
Qed.

Lemma drawnWord_spec (cs : string) (n : nat) (position : Z) :
  cs ≠ EmptyString →
  String.length (drawnWord byteAt adv cs n position) = n
  ∧ Forall (λ c, inCharset cs c = true)
      (chars (drawnWord byteAt adv cs n position)).
Proof.
  intros Hcs. revert position. induction n as [|n IH]; intros position.
  - by split; [|constructor].
  - destruct (pickChar_single cs (byteAt position) Hcs (byte_nonneg _))
      as (c & Ec & Hc).
    destruct (IH (position + adv)) as [Hlen Hall].
    assert (drawnWord byteAt adv cs (S n) position
            = String c (drawnWord byteAt adv cs n (position + adv))) as ->.
    { change (drawnWord byteAt adv cs (S n) position)
        with (pickChar cs (byteAt position)
              +:+ drawnWord byteAt adv cs n (position + adv)).
      by rewrite Ec. }
    split; [simpl; by rewrite Hlen|simpl; by constructor].
Qed.

(** A class word: empty unless the class has a positive minimum. *)
Lemma drawnWord_class (cs : string) (m : Z) (position : Z) :
  cs ≠ EmptyString →
  String.length (drawnWord byteAt adv cs (Z.to_nat m) position) = Z.to_nat m
  ∧ Forall (λ c, inCharset cs c = true)
      (chars (drawnWord byteAt adv cs (Z.to_nat m) position))
  ∧ (m ≤ 0 → drawnWord byteAt adv cs (Z.to_nat m) position = EmptyString).
Proof.
  intros Hcs. destruct (drawnWord_spec cs (Z.to_nat m) position Hcs).
  split; [done|]. split; [done|]. intros Hm.
  by replace (Z.to_nat m) with O by lia.
Qed.

Lemma shuffled_perm (i : nat) (l : list ascii) (position : Z) :
  (i < List.length l ∨ i = 0)%nat →
  ∃ l', shuffled byteAt adv i (single <$> l) position = single <$> l'
        ∧ l' ≡ₚ l.
Proof.
  intros Hi.
  pose (rv := λ (_ : Z) (p : Z), (Return [byteAt p], p + adv)).
  destruct (shuffle_spec rv byteAt adv (λ _, eq_refl) byte_nonneg i l
    position Hi) as (l' & E & Hperm).
  rewrite (shuffle_exact rv byteAt adv (λ _, eq_refl)) in E.
  injection E as E. by exists l'.
Qed.

Lemma synthesized_perm (params : GenerateParams) (position : Z) :
  ∃ l, synthesized byteAt adv params position = string_of_list_ascii l
       ∧ l ≡ₚ chars (assembled byteAt adv params position).
Proof.
  unfold synthesized, Js.split.
  destruct (shuffled_perm
    (List.length (single <$> chars (assembled byteAt adv params position)) - 1)
    (chars (assembled byteAt adv params position))
    (position + adv * Z.of_nat (drawCount params)))
    as (l & -> & Hperm); [rewrite length_fmap; lia|].
  exists l. by rewrite join_single.
Qed.

(** The five words of the assembled password. *)
Lemma assembled_words (params : GenerateParams) (position : Z) :
  passesChecks params →
  ∃ wU wL wN wS wF : string,
    assembled byteAt adv params position = wU +:+ wL +:+ wN +:+ wS +:+ wF
    ∧ (String.length wU = Z.to_nat (minUpper params)
       ∧ String.length wL = Z.to_nat (minLower params)
       ∧ String.length wN = Z.to_nat (minNumbers params)
       ∧ String.length wS = Z.to_nat (minSymbols params)
       ∧ String.length wF = Z.to_nat (length params - totalMinimum params))
    ∧ (Forall (λ c, inCharset (uppercase CHARSETS) c = true) (chars wU)
       ∧ Forall (λ c, inCharset (lowercase CHARSETS) c = true) (chars wL)
       ∧ Forall (λ c, inCharset (numbers CHARSETS) c = true) (chars wN)
       ∧ Forall (λ c, inCharset (symbols CHARSETS) c = true) (chars wS)
       ∧ Forall (λ c, inCharset (pool params) c = true) (chars wF))
    ∧ (minUpper params ≤ 0 → wU = EmptyString)
    ∧ (minLower params ≤ 0 → wL = EmptyString)
    ∧ (minNumbers params ≤ 0 → wN = EmptyString)
    ∧ (minSymbols params ≤ 0 → wS = EmptyString).
Proof.
  intros Hpass.
  destruct (passesChecks_classes params Hpass) as (Hany & _).
  destruct (available_nonempty params Hany) as [_ Hpool].
  unfold assembled.
  eexists _, _, _, _, _. split; [reflexivity|].
  pose proof (λ cs m p H, drawnWord_class cs m p H) as W.
  repeat split; try (by apply W); try (by apply drawnWord_spec).
Qed.

End StreamFacts.

(** ** What a run returns when the checks pass *)

Section StreamSummary.

Variable byteAt : Z → Z.
Variable adv : Z.
Hypothesis byte_nonneg : ∀ position, 0 ≤ byteAt position.

Lemma assembled_length (params : GenerateParams) (position : Z) :
  passesChecks params →
  String.length (assembled byteAt adv params position) = drawCount params.
Proof.
  intros Hpass.
  destruct (assembled_words byteAt adv byte_nonneg params position Hpass)
    as (wU & wL & wN & wS & wF & -> & (LU & LL & LN & LS & LF) & _).
  rewrite <-length_chars, !chars_append, !length_app, !length_chars.
  unfold drawCount. lia.
Qed.

Lemma pool_class (params : GenerateParams) (cs w : string) (m : Z)
    (include : bool) :
  (∀ c, include = true → inCharset cs c = true →
        inCharset (pool params) c = true) →
  (0 < m → include = true) →
  (m ≤ 0 → w = EmptyString) →
  Forall (λ c, inCharset cs c = true) (chars w) →
  Forall (λ c, inCharset (pool params) c = true) (chars w).
Proof.
  intros Hpool Hinc Hempty Hall.
  destruct (Z.lt_ge_cases 0 m) as [Hm|Hm].
  - eapply Forall_impl; [exact Hall|]. intros c Hc. by apply Hpool; auto.
  - rewrite Hempty by lia. constructor.
Qed.

Lemma synthesized_facts (params : GenerateParams) (position : Z) :
  passesChecks params →
  ∃ l : list ascii,
    synthesized byteAt adv params position = string_of_list_ascii l
    ∧ List.length l = drawCount params
    ∧ Forall (λ c, inCharset (pool params) c = true) l
    ∧ (Z.to_nat (minUpper params)
       ≤ countIf (inCharset (uppercase CHARSETS)) l)%nat
    ∧ (Z.to_nat (minLower params)
       ≤ countIf (inCharset (lowercase CHARSETS)) l)%nat
    ∧ (Z.to_nat (minNumbers params)
       ≤ countIf (inCharset (numbers CHARSETS)) l)%nat
    ∧ (Z.to_nat (minSymbols params)
       ≤ countIf (inCharset (symbols CHARSETS)) l)%nat.
Proof.
  intros Hpass.
  destruct (synthesized_perm byteAt adv byte_nonneg params position)
    as (l & E & Hperm).
  pose proof (assembled_length params position Hpass) as Hlen.
  destruct (assembled_words byteAt adv byte_nonneg params position Hpass)
    as (wU & wL & wN & wS & wF & Ewords & (LU & LL & LN & LS & LF)
        & (FU & FL & FN & FS & FF) & EU & EL & EN & ES).
  destruct (passesChecks_classes params Hpass) as (_ & HiU & HiL & HiN & HiS).
  rewrite Ewords, !chars_append in Hperm.
  exists l. split; [done|]. split; [|split].
  - rewrite <-Hlen, <-length_chars, Ewords, !chars_append.
    by apply Permutation_length.
  - rewrite Hperm, !Forall_app. repeat split; [| | | |done].
    + apply (pool_class params (uppercase CHARSETS) wU (minUpper params)
        (includeUpper params)); try done.
      intros c Hi Hc. rewrite inCharset_pool, Hi, Hc. done.
    + apply (pool_class params (lowercase CHARSETS) wL (minLower params)
        (includeLower params)); try done.
      intros c Hi Hc. rewrite inCharset_pool, Hi, Hc. simpl.
      by rewrite !orb_true_r.
    + apply (pool_class params (numbers CHARSETS) wN (minNumbers params)
        (includeNumbers params)); try done.
      intros c Hi Hc. rewrite inCharset_pool, Hi, Hc. simpl.
      by rewrite !orb_true_r.
    + apply (pool_class params (symbols CHARSETS) wS (minSymbols params)
        (includeSymbols params)); try done.
      intros c Hi Hc. rewrite inCharset_pool, Hi, Hc. simpl.
      by rewrite !orb_true_r.
  - apply countIf_Forall in FU, FL, FN, FS.
    rewrite length_chars in FU, FL, FN, FS.
    rewrite !(countIf_Permutation _ _ _ Hperm), !countIf_app. lia.
Qed.

End StreamSummary.

Lemma lib_byte_nonneg (seed : string) (position : Z) :
  0 ≤ seedByteAt (Js.hexDecode seed) position.
Proof. apply seedByteAt_range, hexDecode_range. Qed.

Lemma lib_exact (seed : string) (params : GenerateParams) :
  passesChecks params →
  Lib.run seed params
  = (Return (synthesized (seedByteAt (Js.hexDecode seed)) 1 params 0),
     Z.of_nat (drawCount params + (drawCount params - 1))).
Proof.
  intros Hpass. unfold Lib.run.
  rewrite (body_exact _ (seedByteAt (Js.hexDecode seed)) 1
    (lib_draw_one seed) params 0 Hpass).
  rewrite (assembled_length _ 1 (lib_byte_nonneg seed) params 0 Hpass).
  f_equal. lia.
Qed.

Lemma route_exact (seed : string) (params : GenerateParams) :
  passesChecks params →
  Route.generatePasswordFromSeed seed params
  = Return (synthesized (λ _, seedByteAt (Js.hexDecode seed) 0) 0 params 0).
Proof.
  intros Hpass. unfold Route.generatePasswordFromSeed.
  by rewrite (body_exact _ (λ _, seedByteAt (Js.hexDecode seed) 0) 0
    (route_draw_one (Js.hexDecode seed)) params 0 Hpass).
Qed.

Lemma p16_passes : passesChecks p16.
Proof. apply validSpec_passesChecks, p16_valid. Defined.


Lemma pLower_passes : passesChecks pLower.
Proof.
  split; [|split].
  - intros (_ & H & _). discriminate H.
  - unfold totalMinimum. simpl. lia.
  - intros [[H _]|[[H _]|[[H _]|[H _]]]]; simpl in H; lia.
Defined.

Lemma disabled_excluded (params : GenerateParams) (c : ascii) :
  inCharset (pool params) c = true →
  (includeUpper params = false → inCharset (uppercase CHARSETS) c = false)
  ∧ (includeLower params = false → inCharset (lowercase CHARSETS) c = false)
  ∧ (includeNumbers params = false → inCharset (numbers CHARSETS) c = false)
  ∧ (includeSymbols params = false → inCharset (symbols CHARSETS) c = false).
Proof.
  intros H. pose proof (alphabets_disjoint c) as D.
  rewrite inCharset_pool in H.
  destruct (includeUpper params), (includeLower params),
    (includeNumbers params), (includeSymbols params),
    (inCharset (uppercase CHARSETS) c), (inCharset (lowercase CHARSETS) c),
    (inCharset (numbers CHARSETS) c), (inCharset (symbols CHARSETS) c);
    simpl in *; repeat split; intros; try done; lia.
Qed.

Lemma passesChecks_dec (params : GenerateParams) :
  passesChecks params ∨ ¬ passesChecks params.
Proof.
  unfold passesChecks, noClass, minimumWithoutClass, totalMinimum.
  destruct (decide
    (¬ (includeUpper params = false ∧ includeLower params = false
        ∧ includeNumbers params = false ∧ includeSymbols params = false)
     ∧ minUpper params + minLower params + minNumbers params
       + minSymbols params ≤ length params
     ∧ ¬ ((0 < minUpper params ∧ includeUpper params = false)
          ∨ (0 < minLower params ∧ includeLower params = false)
          ∨ (0 < minNumbers params ∧ includeNumbers params = false)
          ∨ (0 < minSymbols params ∧ includeSymbols params = false))));
    [by left|by right].
Qed.

Lemma noClass_dec (params : GenerateParams) :
  noClass params ∨ ¬ noClass params.
Proof.
  unfold noClass.
  destruct (includeUpper params), (includeLower params),
    (includeNumbers params), (includeSymbols params);
    first [by left | right; intros (? & ? & ? & ?); done].
Qed.

(** ** Further properties of the two copies of [generatePasswordFromSeed] *)

Lemma lib_returns_in_pool (seed : string) (params : GenerateParams) :
  passesChecks params →
  ∃ password,
    Lib.generatePasswordFromSeed seed params = Return password
    ∧ Forall (λ c, inCharset (pool params) c = true) (chars password).
Proof.
  intros Hpass.
  destruct (synthesized_facts _ 1 (lib_byte_nonneg seed) params 0 Hpass)
    as (l & E & _ & Hall & _).
  exists (string_of_list_ascii l). split.
  - unfold Lib.generatePasswordFromSeed. by rewrite lib_exact, E.
  - by rewrite list_ascii_of_string_of_list_ascii.
Qed.

(** X1: when the three checks pass, the library's function returns a
    password whose every character belongs to the alphabet of an enabled
    class (to [allAvailableChars]). *)
Theorem lib_alphabet_closure (seed : string) (params : GenerateParams) :
  passesChecks params →
  ∃ password,
    Lib.generatePasswordFromSeed seed params = Return password
    ∧ Forall (λ c, inCharset (pool params) c = true) (chars password).
Proof. apply lib_returns_in_pool. Qed.

Lemma lib_alphabet_closure_witness :
  ∃ password,
    Lib.generatePasswordFromSeed seedA pLower = Return password
    ∧ Forall (λ c, inCharset (pool pLower) c = true) (chars password).
Proof. apply (lib_alphabet_closure seedA pLower pLower_passes). Defined.

(** X2: when the three checks pass, the password of the library's function
    holds no character of the alphabet of a disabled class. *)
Theorem lib_disabled_class_absent (seed : string) (params : GenerateParams) :
  passesChecks params →
  ∃ password,
    Lib.generatePasswordFromSeed seed params = Return password
    ∧ (includeUpper params = false →
       countClass (uppercase CHARSETS) password = O)
    ∧ (includeLower params = false →
       countClass (lowercase CHARSETS) password = O)
    ∧ (includeNumbers params = false →
       countClass (numbers CHARSETS) password = O)
    ∧ (includeSymbols params = false →
       countClass (symbols CHARSETS) password = O).
Proof.
  intros Hpass.
  destruct (lib_returns_in_pool seed params Hpass) as (password & E & Hall).
  exists password. split; [done|]. unfold countClass.
  repeat split; intros Hoff; apply countIf_zero;
    (eapply Forall_impl; [exact Hall|]); intros c Hc;
    by apply (disabled_excluded params c Hc).
Qed.

Lemma lib_disabled_class_absent_witness :
  ∃ password,
    Lib.generatePasswordFromSeed seedA pLower = Return password
    ∧ (includeUpper pLower = false →
       countClass (uppercase CHARSETS) password = O)
    ∧ (includeLower pLower = false →
       countClass (lowercase CHARSETS) password = O)
    ∧ (includeNumbers pLower = false →
       countClass (numbers CHARSETS) password = O)
    ∧ (includeSymbols pLower = false →
       countClass (symbols CHARSETS) password = O).
Proof. apply (lib_disabled_class_absent seedA pLower pLower_passes). Defined.



Lemma failed_checks_same_error (seed : string) (params : GenerateParams) :
  ¬ passesChecks params →
  ∃ msg, msg ∈ errorMessages
         ∧ Lib.generatePasswordFromSeed seed params = Throw (Error msg)
         ∧ Route.generatePasswordFromSeed seed params = Throw (Error msg).
Proof.
  intros Hfail.
  unfold Lib.generatePasswordFromSeed, Lib.run, Route.generatePasswordFromSeed,
    errorMessages.
  destruct (noClass_dec params) as [Hnone|Hsome].
  { exists noClassMessage. rewrite !body_no_class by done.
    split; [by constructor|done]. }
  destruct (Z.lt_ge_cases (length params) (totalMinimum params)) as [Hlt|Hge].
  { exists exceedMessage. rewrite !body_exceed by done.
    split; [by repeat constructor|done]. }
  assert (minimumWithoutClass params) as Hmiss.
  { unfold passesChecks in Hfail.
    destruct (decide (minimumWithoutClass params)) as [?|Hn]; [done|].
    destruct Hfail. split; [done|]. split; [lia|done]. }
  destruct (body_min_without_class (Lib.createRandomGenerator seed)
    (Route.randomValues (Js.hexDecode seed)) params 0 0 Hsome ltac:(lia)
    Hmiss) as (msg & Hin & -> & ->).
  exists msg. split; [|done]. by do 2 apply list_elem_of_further.
Qed.


(** X5: the route's copy meets the constraints as well: on a valid
    specification it returns a password of exactly [length] characters that
    holds each class's minimum of characters of the class's alphabet. *)
Theorem route_length_and_minimums (seed : string) (params : GenerateParams) :
  validSpec params →
  ∃ password,
    Route.generatePasswordFromSeed seed params = Return password
    ∧ Z.of_nat (String.length password) = length params
    ∧ minUpper params ≤ Z.of_nat (countClass (uppercase CHARSETS) password)
    ∧ minLower params ≤ Z.of_nat (countClass (lowercase CHARSETS) password)
    ∧ minNumbers params ≤ Z.of_nat (countClass (numbers CHARSETS) password)
    ∧ minSymbols params ≤ Z.of_nat (countClass (symbols CHARSETS) password).
Proof.
  intros Hvalid.
  pose proof (validSpec_passesChecks params Hvalid) as Hpass.
  destruct (synthesized_facts (λ _, seedByteAt (Js.hexDecode seed) 0) 0
    (λ _, lib_byte_nonneg seed 0) params 0 Hpass)
    as (l & E & Hlen & _ & CU & CL & CN & CS).
  destruct Hvalid as (HU & HL & HN & HS & Hsum & _).
  exists (string_of_list_ascii l).
  rewrite route_exact, E by done. unfold countClass.
  rewrite length_string_of_list_ascii, list_ascii_of_string_of_list_ascii, Hlen.
  unfold drawCount, totalMinimum. repeat split; lia.
Qed.

Lemma route_length_and_minimums_witness :
  ∃ password,
    Route.generatePasswordFromSeed seedA p16 = Return password
    ∧ Z.of_nat (String.length password) = length p16
    ∧ minUpper p16 ≤ Z.of_nat (countClass (uppercase CHARSETS) password)
    ∧ minLower p16 ≤ Z.of_nat (countClass (lowercase CHARSETS) password)
    ∧ minNumbers p16 ≤ Z.of_nat (countClass (numbers CHARSETS) password)
    ∧ minSymbols p16 ≤ Z.of_nat (countClass (symbols CHARSETS) password).
Proof. apply (route_length_and_minimums seedA p16 p16_valid). Defined.

Lemma drawnWord_const (b adv : Z) (cs : string) (c : ascii) (n : nat)
    (position : Z) :
  pickChar cs b = single c →
  Forall (λ x, x = c) (chars (drawnWord (λ _, b) adv cs n position)).
Proof.
  intros Ec. revert position. induction n as [|n IH]; intros position.
  - constructor.
  - change (drawnWord (λ _, b) adv cs (S n) position)
      with (pickChar cs b +:+ drawnWord (λ _, b) adv cs n (position + adv)).
    rewrite Ec. simpl. constructor; [done|apply IH].
Qed.

(** X6: every password the route's copy returns is made of at most five
    distinct characters, one per class and one for the fill, since each of
    its draws is the same byte. *)
Theorem route_at_most_five_characters (seed : string)
    (params : GenerateParams) :
  passesChecks params →
  ∃ (password : string) (cU cL cN cS cF : ascii),
    Route.generatePasswordFromSeed seed params = Return password
    ∧ Forall (λ c, c ∈ [cU; cL; cN; cS; cF]) (chars password).
Proof.
  intros Hpass.
  set (b := seedByteAt (Js.hexDecode seed) 0).
  assert (0 ≤ b) as Hb by apply lib_byte_nonneg.
  destruct (passesChecks_classes params Hpass) as (Hany & _).
  destruct (available_nonempty params Hany) as [_ Hpool].
  destruct (pickChar_single (uppercase CHARSETS) b) as (cU & EU & _);
    [done..|].
  destruct (pickChar_single (lowercase CHARSETS) b) as (cL & EL & _);
    [done..|].
  destruct (pickChar_single (numbers CHARSETS) b) as (cN & EN & _);
    [done..|].
  destruct (pickChar_single (symbols CHARSETS) b) as (cS & ES & _);
    [done..|].
  destruct (pickChar_single (Js.join (snd <$> buildAvailableCharsets params))
    b) as (cF & EF & _); [done..|].
  destruct (synthesized_perm (λ _, b) 0 (λ _, Hb) params 0)
    as (l & E & Hperm).
  exists (string_of_list_ascii l), cU, cL, cN, cS, cF.
  split; [by rewrite route_exact, <-E|].
  rewrite list_ascii_of_string_of_list_ascii, Hperm.
  unfold assembled. rewrite !chars_append, !Forall_app.
  repeat split;
    (eapply Forall_impl; [by apply drawnWord_const|]);
    intros c ->;
    repeat (first [apply list_elem_of_here|apply list_elem_of_further]).
Qed.

Lemma route_at_most_five_characters_witness :
  ∃ (password : string) (cU cL cN cS cF : ascii),
    Route.generatePasswordFromSeed seedA p16 = Return password
    ∧ Forall (λ c, c ∈ [cU; cL; cN; cS; cF]) (chars password).
Proof. apply (route_at_most_five_characters seedA p16 p16_passes). Defined.

(** ** Two byte streams that agree on a prefix *)

Section StreamAgree.

Variables b1 b2 : Z → Z.
Variable hi : Z.
Hypothesis agree : ∀ p, 0 ≤ p < hi → b1 p = b2 p.

Lemma drawnWord_agree (cs : string) (n : nat) (position : Z) :
  0 ≤ position → position + Z.of_nat n ≤ hi →
  drawnWord b1 1 cs n position = drawnWord b2 1 cs n position.
Proof.
  revert position. induction n as [|n IH]; intros position Hlo Hhi; [done|].
  simpl. rewrite agree by lia. f_equal. apply IH; lia.
Qed.

Lemma shuffled_agree (i : nat) (a : list string) (position : Z) :
  0 ≤ position → position + Z.of_nat i ≤ hi →
  shuffled b1 1 i a position = shuffled b2 1 i a position.
Proof.
  revert a position. induction i as [|i IH]; intros a position Hlo Hhi;
    [done|].
  simpl. rewrite agree by lia. apply IH; lia.
Qed.

Lemma assembled_agree (params : GenerateParams) :
  Z.of_nat (drawCount params) ≤ hi →
  assembled b1 1 params 0 = assembled b2 1 params 0.
Proof.
  unfold drawCount, totalMinimum, assembled. cbv zeta. intros Hhi.
  f_equal; [|f_equal; [|f_equal; [|f_equal]]]; apply drawnWord_agree; lia.
Qed.

End StreamAgree.

Lemma synthesized_agree (b1 b2 : Z → Z) (params : GenerateParams) :
  passesChecks params →
  (∀ position, 0 ≤ b1 position) →
  (∀ p, 0 ≤ p < Z.of_nat (drawCount params + (drawCount params - 1)) →
        b1 p = b2 p) →
  synthesized b1 1 params 0 = synthesized b2 1 params 0.
Proof.
  intros Hpass Hnonneg Hagree. unfold synthesized.
  rewrite <-(assembled_agree b1 b2 _ Hagree params) by lia.
  unfold Js.split. rewrite length_fmap, length_chars.
  rewrite (assembled_length b1 1 Hnonneg params 0 Hpass).
  f_equal. apply (shuffled_agree b1 b2 _ Hagree); lia.
Qed.

Lemma seedByteAt_small (seedBytes : list Z) (p : nat) :
  (p < List.length seedBytes)%nat →
  seedBytes !! p = Some (seedByteAt seedBytes (Z.of_nat p)).
Proof.
  intros Hp. rewrite <-seedByteAt_mod by (destruct seedBytes; simpl in *; [lia|done]).
  by rewrite Nat.mod_small.
Qed.

(** X7: on a valid specification the library's function reads only the
    first [2 * length - 1] bytes of the seed: two seeds that decode to at
    least that many bytes and share them give the same password. *)
Theorem lib_reads_seed_prefix (seed1 seed2 : string)
    (params : GenerateParams) :
  validSpec params →
  let n := Z.to_nat (2 * length params - 1) in
  (n ≤ List.length (Js.hexDecode seed1))%nat →
  (n ≤ List.length (Js.hexDecode seed2))%nat →
  take n (Js.hexDecode seed1) = take n (Js.hexDecode seed2) →
  Lib.generatePasswordFromSeed seed1 params
  = Lib.generatePasswordFromSeed seed2 params.
Proof.
  intros Hvalid n Hlen1 Hlen2 Htake.
  pose proof (validSpec_passesChecks params Hvalid) as Hpass.
  unfold Lib.generatePasswordFromSeed. rewrite !lib_exact by done.
  simpl. f_equal.
  apply synthesized_agree; [done|apply lib_byte_nonneg|].
  intros p Hp.
  assert (Z.of_nat (drawCount params) = length params) as Hcount.
  { destruct Hvalid as (HU & HL & HN & HS & Hsum & _).
    unfold drawCount, totalMinimum. lia. }
  assert (Z.to_nat p < n)%nat as Hpn by (unfold n; lia).
  pose proof (seedByteAt_small (Js.hexDecode seed1) (Z.to_nat p)
    ltac:(lia)) as E1.
  pose proof (seedByteAt_small (Js.hexDecode seed2) (Z.to_nat p)
    ltac:(lia)) as E2.
  rewrite <-(lookup_take_lt _ n) in E1 by done.
  rewrite <-(lookup_take_lt _ n) in E2 by done.
  rewrite Htake, E2, Z2Nat.id in E1 by lia. by injection E1.
Qed.

Lemma lib_reads_seed_prefix_witness :
  Lib.generatePasswordFromSeed
    "000102030405060708090a0b0c0d0eff" p8
  = Lib.generatePasswordFromSeed
      "000102030405060708090a0b0c0d0e00112233" p8.
Proof.
  apply (lib_reads_seed_prefix "000102030405060708090a0b0c0d0eff"
    "000102030405060708090a0b0c0d0e00112233" p8).
  - unfold validSpec. simpl. repeat split; lia.
  - vm_compute. lia.
  - vm_compute. lia.
  - vm_compute. reflexivity.
Defined.

(** X8: the library's generator hands out the same bytes and ends at the
    same position whether a request is made in one call or split over
    several calls. *)
Theorem lib_generator_split_calls (seed : string) (lens : list Z)
    (position : Z) :
  Forall (λ len, 0 ≤ len) lens →
  draws (Lib.createRandomGenerator seed) lens position
  = Lib.createRandomGenerator seed (sumZ lens) position.
Proof.
  intros Hlens.
  destruct (lib_draws seed lens position Hlens) as (out & -> & Hlen & Hout).
  unfold Lib.createRandomGenerator.
  destruct (Z.ltb_spec (sumZ lens) 0) as [?|_]; [lia|].
  pose proof (lib_fill_snd (Js.hexDecode seed) (Z.to_nat (sumZ lens)) position)
    as Hsnd.
  pose proof (lib_fill_length (Js.hexDecode seed) (Z.to_nat (sumZ lens))
    position) as Hlength.
  pose proof (λ k, lib_fill_lookup (Js.hexDecode seed) (Z.to_nat (sumZ lens))
    k position) as Hlookup.
  destruct (Lib.fill (Js.hexDecode seed) (Z.to_nat (sumZ lens)) position)
    as [bytes position']. simpl in *.
  f_equal; [f_equal|lia].
  apply list_eq. intros k.
  destruct (decide (k < List.length out)%nat) as [Hk|Hk].
  - rewrite Hout, Hlookup by lia. done.
  - rewrite !lookup_ge_None_2 by lia. done.
Qed.

Lemma lib_generator_split_calls_witness :
  draws (Lib.createRandomGenerator seedA) [2; 0; 3; 1] 5
  = Lib.createRandomGenerator seedA (sumZ [2; 0; 3; 1]) 5.
Proof.
  apply (lib_generator_split_calls seedA [2; 0; 3; 1] 5).
  repeat constructor; lia.
Defined.

Lemma route_fill_lib_fill (seedBytes : list Z) (n : nat) (i : Z) :
  Route.fill seedBytes n i = (Lib.fill seedBytes n i).1.
Proof.
  revert i. induction n as [|n IH]; intros i; [done|].
  simpl. rewrite IH. by destruct (Lib.fill seedBytes n (i + 1)).
Qed.

(** X9: every call of the route's [randomValues], whatever was drawn before
    it, answers as the first call of a fresh generator of the library does:
    the same outcome, bytes or [RangeError]. *)
Theorem route_call_is_fresh_library_call (seed : string) (len position : Z) :
  (Route.randomValues (Js.hexDecode seed) len position).1
  = (Lib.createRandomGenerator seed len 0).1
  ∧ (Route.randomValues (Js.hexDecode seed) len position).2 = position.
Proof.
  unfold Route.randomValues, Lib.createRandomGenerator.
  destruct (len <? 0); [done|].
  rewrite route_fill_lib_fill.
  by destruct (Lib.fill (Js.hexDecode seed) (Z.to_nat len) 0).
Qed.

(** ** The request handler *)

Lemma route_returns_length (seed : string) (params : GenerateParams) :
  passesChecks params →
  ∃ password,
    Route.generatePasswordFromSeed seed params = Return password
    ∧ String.length password = drawCount params.
Proof.
  intros Hpass.
  destruct (synthesized_facts (λ _, seedByteAt (Js.hexDecode seed) 0) 0
    (λ _, lib_byte_nonneg seed 0) params 0 Hpass) as (l & E & Hlen & _).
  exists (string_of_list_ascii l).
  by rewrite route_exact, E, length_string_of_list_ascii.
Qed.

Lemma handler_checks_pass (params : GenerateParams) :
  handlerAccepts params →
  (length params <? 8) || (length params >? 32) = false
  ∧ (minUpper params <? 0) || (minLower params <? 0)
    || (minNumbers params <? 0) || (minSymbols params <? 0) = false
  ∧ negb (includeUpper params) && negb (includeLower params)
    && negb (includeNumbers params) && negb (includeSymbols params) = false
  ∧ (minUpper params + minLower params + minNumbers params
     + minSymbols params >? length params) = false.
Proof.
  intros ([H8 H32] & (HU & HL & HN & HS) & Hsome & Hsum).
  unfold totalMinimum in Hsum.
  rewrite !gtb_false by lia.
  rewrite !(proj2 (Z.ltb_ge _ _)) by lia.
  apply not_noClass in Hsome.
  repeat split; try done.
  destruct (includeUpper params), (includeLower params),
    (includeNumbers params), (includeSymbols params); done.
Qed.

(** X10: for parameters that pass the four checks of the handler, [GET]
    answers 500 with "Failed to generate password" exactly when a disabled
    class has a positive minimum, a case the handler does not check itself;
    otherwise it answers with the seed it was given, the fallback flag and a
    password of [length] characters, so between 8 and 32. *)
Theorem GET_accepted_request (params : GenerateParams) (seed : string)
    (usedFallback : bool) :
  handlerAccepts params →
  (minimumWithoutClass params →
   RouteHandler.GET params seed usedFallback
   = RouteHandler.ErrorJson "Failed to generate password" 500)
  ∧ (¬ minimumWithoutClass params →
     ∃ password,
       RouteHandler.GET params seed usedFallback
       = RouteHandler.ResultJson
           {| RouteHandler.password := password;
              RouteHandler.seed := seed;
              RouteHandler.usedFallback := usedFallback |}
       ∧ Z.of_nat (String.length password) = length params
       ∧ 8 ≤ Z.of_nat (String.length password) ≤ 32).
Proof.
  intros Hacc.
  destruct (handler_checks_pass params Hacc) as (C1 & C2 & C3 & C4).
  destruct Hacc as (Hrange & (HU & HL & HN & HS) & Hsome & Hsum).
  unfold RouteHandler.GET. rewrite C1, C2, C3, C4. split.
  - intros Hmiss. unfold Route.generatePasswordFromSeed.
    destruct (body_min_without_class
      (Route.randomValues (Js.hexDecode seed))
      (Route.randomValues (Js.hexDecode seed)) params 0 0 Hsome Hsum Hmiss)
      as (msg & _ & -> & _). done.
  - intros Hok.
    destruct (route_returns_length seed params) as (password & -> & Hlen);
      [done|].
    exists password. split; [done|].
    assert (Z.of_nat (String.length password) = length params) as ->; [|lia].
    rewrite Hlen. unfold drawCount. unfold totalMinimum in *. lia.
Qed.

Lemma pUnchecked_accepted : handlerAccepts pUnchecked.
Proof.
  unfold handlerAccepts, totalMinimum. simpl.
  repeat split; try lia. intros (_ & H & _). discriminate H.
Defined.

Lemma p16_accepted : handlerAccepts p16.
Proof.
  unfold handlerAccepts, totalMinimum. simpl.
  repeat split; try lia. intros (H & _). discriminate H.
Defined.

Lemma GET_accepted_request_witness :
  RouteHandler.GET pUnchecked seedA false
  = RouteHandler.ErrorJson "Failed to generate password" 500
  ∧ ∃ password,
      RouteHandler.GET p16 seedA false
      = RouteHandler.ResultJson
          {| RouteHandler.password := password;
             RouteHandler.seed := seedA;
             RouteHandler.usedFallback := false |}
      ∧ Z.of_nat (String.length password) = length p16
      ∧ 8 ≤ Z.of_nat (String.length password) ≤ 32.
Proof.
  split.
  - apply (proj1 (GET_accepted_request pUnchecked seedA false
      pUnchecked_accepted)).
    left. split; [simpl; lia|reflexivity].
  - apply (proj2 (GET_accepted_request p16 seedA false p16_accepted)).
    intros [[_ H]|[[_ H]|[[_ H]|[_ H]]]]; discriminate H.
Defined.



(** ** The page *)

Lemma types_cases (type : string) :
  type ∈ Page.types →
  type = "uppercase" ∨ type = "lowercase" ∨ type = "numbers"
  ∨ type = "symbols".
Proof. unfold Page.types. rewrite !elem_of_cons, elem_of_nil. tauto. Qed.

Lemma fieldMap_cases (type field : string) :
  Page.fieldMap !! type = Some field →
  (type = "uppercase" ∧ field = "minUpper")
  ∨ (type = "lowercase" ∧ field = "minLower")
  ∨ (type = "numbers" ∧ field = "minNumbers")
  ∨ (type = "symbols" ∧ field = "minSymbols").
Proof.
  unfold Page.fieldMap. rewrite !lookup_insert_Some, lookup_empty.
  intros [[<- <-]|[_ [[<- <-]|[_ [[<- <-]|[_ [[<- <-]|[_ ?]]]]]]]]; auto.
  done.
Qed.

Lemma checked_insert (s : Page.state) (form : Page.FormData)
    (type key : string) (value : bool) :
  Page.checked
    {| Page.formData := form;
       Page.characterTypes := <[type := value]> (Page.characterTypes s) |} key
  = if decide (type = key) then value else Page.checked s key.
Proof.
  unfold Page.checked. simpl. rewrite lookup_insert. by case_decide.
Qed.

Lemma uncheck_form (s : Page.state) (type : string) :
  type ∈ Page.types →
  ∃ field,
    Page.fieldMap !! type = Some field
    ∧ Page.formData (Page.handleCharacterTypeChange type false s)
      = Page.setField field 0 (Page.formData s).
Proof.
  intros Htype. unfold Page.handleCharacterTypeChange. simpl.
  destruct (types_cases type Htype) as [->|[->|[->| ->]]].
  - exists "minUpper".
    assert (Page.fieldMap !! "uppercase" = Some "minUpper") as ->
      by (vm_compute; reflexivity). done.
  - exists "minLower".
    assert (Page.fieldMap !! "lowercase" = Some "minLower") as ->
      by (vm_compute; reflexivity). done.
  - exists "minNumbers".
    assert (Page.fieldMap !! "numbers" = Some "minNumbers") as ->
      by (vm_compute; reflexivity). done.
  - exists "minSymbols".
    assert (Page.fieldMap !! "symbols" = Some "minSymbols") as ->
      by (vm_compute; reflexivity). done.
Qed.

Lemma pageInvariant_initial : pageInvariant Page.initial.
Proof.
  split; [simpl; lia|]. split.
  - intros key. unfold Page.initial. simpl.
    rewrite !lookup_insert_is_Some', lookup_empty.
    unfold Page.types. rewrite !elem_of_cons.
    intros [<-|[<-|[<-|[<-|[? ?]]]]]; auto. done.
  - intros type Htype.
    destruct (types_cases type Htype) as [->|[->|[->| ->]]];
      vm_compute; discriminate.
Qed.

Lemma pageInvariant_step (s s' : Page.state) :
  pageInvariant s → Page.step s s' → pageInvariant s'.
Proof.
  intros (Hrange & Hkeys & Hzero) Hstep.
  destruct Hstep as [s value Hvalue|s type field value Hfield Hchecked
                    |s type value Htype].
  - split; [simpl; lia|]. split; [done|]. intros type Htype Hoff.
    rewrite <-(Hzero type Htype Hoff).
    destruct (types_cases type Htype) as [->|[->|[->| ->]]]; reflexivity.
  - assert (Page.length (Page.formData (Page.handleInputChange field value s))
            = Page.length (Page.formData s)) as Hlen.
    { destruct (fieldMap_cases type field Hfield)
        as [[_ ->]|[[_ ->]|[[_ ->]|[_ ->]]]]; reflexivity. }
    split; [by rewrite Hlen|]. split; [done|].
    intros type' Htype' Hoff.
    change (Page.checked s type' = false) in Hoff.
    rewrite <-(Hzero type' Htype' Hoff).
    destruct (fieldMap_cases type field Hfield)
      as [[-> ->]|[[-> ->]|[[-> ->]|[-> ->]]]];
      destruct (types_cases type' Htype') as [->|[->|[->| ->]]];
      first [reflexivity|congruence].
  - destruct (uncheck_form s type Htype) as (field & Hfield & Hform).
    split; [|split].
    + destruct value; [done|]. rewrite Hform.
      destruct (fieldMap_cases type field Hfield)
        as [[_ ->]|[[_ ->]|[[_ ->]|[_ ->]]]]; simpl; lia.
    + intros key. simpl. rewrite lookup_insert_is_Some'.
      intros [<-|Hkey]; [done|by apply Hkeys].
    + intros type' Htype'.
      assert (Page.checked (Page.handleCharacterTypeChange type value s) type'
              = if decide (type = type') then value else Page.checked s type')
        as -> by apply checked_insert.
      unfold Page.minimumOf. case_decide as Heq.
      * intros ->. subst type'. rewrite Hform.
        destruct (fieldMap_cases type field Hfield)
          as [[-> ->]|[[-> ->]|[[-> ->]|[-> ->]]]]; reflexivity.
      * intros Hoff. rewrite <-(Hzero type' Htype' Hoff).
        destruct value; [reflexivity|]. rewrite Hform.
        destruct (fieldMap_cases type field Hfield)
          as [[-> ->]|[[-> ->]|[[-> ->]|[-> ->]]]];
          destruct (types_cases type' Htype') as [->|[->|[->| ->]]];
          first [reflexivity|done].
Qed.

Lemma reachable_invariant (s : Page.state) :
  Page.reachable s → pageInvariant s.
Proof.
  induction 1 as [|s s' _ IH Hstep];
    [apply pageInvariant_initial|by apply (pageInvariant_step s)].
Qed.

Lemma some_checked (s : Page.state) :
  (∀ key, is_Some (Page.characterTypes s !! key) → key ∈ Page.types) →
  existsb id (snd <$> map_to_list (Page.characterTypes s)) = true →
  ∃ type, type ∈ Page.types ∧ Page.checked s type = true.
Proof.
  intros Hkeys Hsome.
  apply existsb_exists in Hsome as (v & Hin & Hv).
  apply list_elem_of_In, list_elem_of_fmap in Hin as ([key v'] & -> & Hin).
  apply elem_of_map_to_list in Hin. simpl in Hv. unfold id in Hv. subst v'.
  exists key. split; [by apply Hkeys; eexists|].
  unfold Page.checked. by rewrite Hin.
Qed.

(** A state in which the Generate button is enabled passes the three checks
    of [generatePasswordFromSeed]. *)
Lemma page_isValid_passes (s : Page.state) :
  pageInvariant s → Page.isValid s = true →
  passesChecks (Page.generateParams s).
Proof.
  intros (_ & Hkeys & Hzero) Hvalid.
  apply andb_true_iff in Hvalid as [Hsum Hsome]. apply Z.leb_le in Hsum.
  destruct (some_checked s Hkeys Hsome) as (type & Htype & Hon).
  pose proof (Hzero "uppercase" ltac:(by repeat constructor)) as ZU.
  pose proof (Hzero "lowercase" ltac:(by repeat constructor)) as ZL.
  pose proof (Hzero "numbers" ltac:(by repeat constructor)) as ZN.
  pose proof (Hzero "symbols" ltac:(by repeat constructor)) as ZS.
  change (Page.minimumOf s "uppercase") with (Page.minUpper (Page.formData s))
    in ZU.
  change (Page.minimumOf s "lowercase") with (Page.minLower (Page.formData s))
    in ZL.
  change (Page.minimumOf s "numbers") with (Page.minNumbers (Page.formData s))
    in ZN.
  change (Page.minimumOf s "symbols") with (Page.minSymbols (Page.formData s))
    in ZS.
  unfold Page.totalMin in Hsum.
  unfold passesChecks, noClass, minimumWithoutClass, totalMinimum,
    Page.generateParams, mkGenerateParams. simpl.
  split; [|split].
  - intros (HU & HL & HN & HS).
    destruct (types_cases type Htype) as [->|[->|[->| ->]]]; congruence.
  - destruct (Page.checked s "uppercase"), (Page.checked s "lowercase"),
      (Page.checked s "numbers"), (Page.checked s "symbols");
      rewrite ?ZU, ?ZL, ?ZN, ?ZS by done; lia.
  - intros [[Hm Hi]|[[Hm Hi]|[[Hm Hi]|[Hm Hi]]]];
      [rewrite ZU in Hm|rewrite ZL in Hm|rewrite ZN in Hm|rewrite ZS in Hm];
      done || lia.
Qed.

Lemma lib_returns_length (seed : string) (params : GenerateParams) :
  passesChecks params →
  ∃ password,
    Lib.generatePasswordFromSeed seed params = Return password
    ∧ String.length password = drawCount params.
Proof.
  intros Hpass.
  destruct (synthesized_facts _ 1 (lib_byte_nonneg seed) params 0 Hpass)
    as (l & E & Hlen & _).
  exists (string_of_list_ascii l).
  unfold Lib.generatePasswordFromSeed.
  by rewrite lib_exact, E, length_string_of_list_ascii.
Qed.

Lemma unchecked_reachable :
  Page.reachable (Page.handleCharacterTypeChange "uppercase" false Page.initial).
Proof.
  apply (Page.reachable_step Page.initial); [apply Page.reachable_initial|].
  apply Page.step_checkbox. by repeat constructor.
Defined.

(** X12: in every state the controls of the page can reach from the
    initial form, the length is between 8 and 32 and every unchecked
    character type has minimum 0: unchecking resets the minimum, and the
    number input of an unchecked type is disabled. *)
Theorem page_unchecked_minimum_zero (s : Page.state) :
  Page.reachable s →
  8 ≤ Page.length (Page.formData s) ≤ 32
  ∧ ∀ type, type ∈ Page.types → Page.checked s type = false →
            Page.minimumOf s type = 0.
Proof.
  intros Hreach.
  destruct (reachable_invariant s Hreach) as (Hrange & _ & Hzero). done.
Qed.

Lemma page_unchecked_minimum_zero_witness :
  8 ≤ Page.length (Page.formData
        (Page.handleCharacterTypeChange "uppercase" false Page.initial)) ≤ 32
  ∧ ∀ type, type ∈ Page.types →
      Page.checked
        (Page.handleCharacterTypeChange "uppercase" false Page.initial) type
      = false →
      Page.minimumOf
        (Page.handleCharacterTypeChange "uppercase" false Page.initial) type
      = 0.
Proof.
  apply (page_unchecked_minimum_zero
    (Page.handleCharacterTypeChange "uppercase" false Page.initial)
    unchecked_reachable).
Defined.

(** X13: in every reachable state of the page in which the Generate button
    is enabled ([isValid]), the call of [generatePasswordFromSeed] made by
    [handleGenerate] returns a password, whatever the seed; when no minimum
    is negative the password has the length set by the slider. *)
Theorem page_generate_returns (s : Page.state) (seedData : string) :
  Page.reachable s →
  Page.isValid s = true →
  ∃ password,
    Page.generate s seedData = Return password
    ∧ (0 ≤ Page.minUpper (Page.formData s)
       ∧ 0 ≤ Page.minLower (Page.formData s)
       ∧ 0 ≤ Page.minNumbers (Page.formData s)
       ∧ 0 ≤ Page.minSymbols (Page.formData s) →
       Z.of_nat (String.length password) = Page.length (Page.formData s)).
Proof.
  intros Hreach Hvalid.
  pose proof (page_isValid_passes s (reachable_invariant s Hreach) Hvalid)
    as Hpass.
  destruct (lib_returns_length seedData (Page.generateParams s) Hpass)
    as (password & E & Hlen).
  exists password. split; [done|].
  intros (HU & HL & HN & HS). rewrite Hlen.
  destruct Hpass as (_ & Hsum & _).
  unfold drawCount, totalMinimum, Page.generateParams, mkGenerateParams in *.
  simpl in *. lia.
Qed.

Lemma page_generate_returns_witness :
  ∃ password,
    Page.generate
      (Page.handleCharacterTypeChange "uppercase" false Page.initial) seedA
    = Return password
    ∧ (0 ≤ Page.minUpper (Page.formData
             (Page.handleCharacterTypeChange "uppercase" false Page.initial))
       ∧ 0 ≤ Page.minLower (Page.formData
               (Page.handleCharacterTypeChange "uppercase" false Page.initial))
       ∧ 0 ≤ Page.minNumbers (Page.formData
               (Page.handleCharacterTypeChange "uppercase" false Page.initial))
       ∧ 0 ≤ Page.minSymbols (Page.formData
               (Page.handleCharacterTypeChange "uppercase" false Page.initial))
       →
       Z.of_nat (String.length password)
       = Page.length (Page.formData
           (Page.handleCharacterTypeChange "uppercase" false Page.initial))).
Proof.
  apply (page_generate_returns
    (Page.handleCharacterTypeChange "uppercase" false Page.initial) seedA
    unchecked_reachable).
  vm_compute. reflexivity.
Defined.

(** ** When the two copies agree *)

Section ConstantStream.

Variable b1 : Z → Z.
Variable b : Z.
Hypothesis constant : ∀ p, 0 ≤ p → b1 p = b.

Lemma drawnWord_constant_stream (cs : string) (n : nat)
    (position position' : Z) :
  0 ≤ position →
  drawnWord b1 1 cs n position = drawnWord (λ _, b) 0 cs n position'.
Proof.
  revert position position'.
  induction n as [|n IH]; intros position position' Hpos; [done|].
  simpl. rewrite constant by done. f_equal. apply IH. lia.
Qed.

Lemma shuffled_constant_stream (i : nat) (a : list string)
    (position position' : Z) :
  0 ≤ position →
  shuffled b1 1 i a position = shuffled (λ _, b) 0 i a position'.
Proof.
  revert a position position'.
  induction i as [|i IH]; intros a position position' Hpos; [done|].
  simpl. rewrite constant by done. apply IH. lia.
Qed.

Lemma synthesized_constant_stream (params : GenerateParams) :
  synthesized b1 1 params 0 = synthesized (λ _, b) 0 params 0.
Proof.
  assert (assembled b1 1 params 0 = assembled (λ _, b) 0 params 0) as E.
  { unfold assembled. cbv zeta.
    f_equal; [|f_equal; [|f_equal; [|f_equal]]];
      apply drawnWord_constant_stream; lia. }
  unfold synthesized. rewrite E. f_equal.
  apply shuffled_constant_stream. lia.
Qed.

End ConstantStream.

Lemma seedByteAt_constant_seed (seedBytes : list Z) (b0 : Z) (p : Z) :
  Forall (λ x, x = b0) seedBytes → 0 ≤ p →
  seedByteAt seedBytes p = seedByteAt seedBytes 0.
Proof.
  intros Hall Hp. destruct (decide (seedBytes = [])) as [->|Hne]; [done|].
  pose proof (seedByteAt_mod seedBytes (Z.to_nat p) Hne) as E1.
  pose proof (seedByteAt_mod seedBytes 0 Hne) as E2.
  rewrite Z2Nat.id in E1 by done.
  apply (Forall_lookup_1 _ _ _ _ Hall) in E1.
  apply (Forall_lookup_1 _ _ _ _ Hall) in E2.
  change (Z.of_nat 0) with 0 in E2. simpl in E1, E2. by rewrite E1, E2.
Qed.

(** X14: when all the bytes of the decoded seed are equal, or there are
    none, the route's copy and the library's function give the same
    outcome on every parameter record. *)
Theorem copies_agree_on_constant_seed (seed : string)
    (params : GenerateParams) (b0 : Z) :
  Forall (λ x, x = b0) (Js.hexDecode seed) →
  Lib.generatePasswordFromSeed seed params
  = Route.generatePasswordFromSeed seed params.
Proof.
  intros Hall.
  destruct (passesChecks_dec params) as [Hpass|Hfail].
  - unfold Lib.generatePasswordFromSeed.
    rewrite lib_exact, route_exact by done. simpl. f_equal.
    apply synthesized_constant_stream.
    intros p Hp. by apply (seedByteAt_constant_seed _ b0).
  - destruct (failed_checks_same_error seed params Hfail)
      as (msg & _ & -> & ->). done.
Qed.

Lemma copies_agree_on_constant_seed_witness :
  Lib.generatePasswordFromSeed "2a2a2a" p16
  = Route.generatePasswordFromSeed "2a2a2a" p16.
Proof.
  apply (copies_agree_on_constant_seed "2a2a2a" p16 42).
  vm_compute. repeat constructor.
Defined.
